(** * Argon2 block filling on POWER8/VSX: a shallow embedding

    This development embeds [src/blake2/blamka-round-vsx.h] and
    [src/opt-vsx.c] and proves properties of the mixing core ([fill_block])
    and of the segment filler ([fill_segment]).

    Target model.  The sources are a one-to-one port of the SSE2 code and
    rely on the element numbering of a little-endian POWER8 (ppc64le): the
    element 0 of a vector is the one at the lowest address, and the byte 0 of
    a 64-bit element is its least significant byte.  All casts between
    [v2du], [v4su] and [v16qu] below follow that layout.

    Numbers.  A [uint64_t] is a [Z] in [0, 2^64), a [uint32_t] a [Z] in
    [0, 2^32); wrap-around is written out with [mod]. *)

From stdpp Require Import base list numbers.
From Stdlib Require Import ZArith Lia.

Local Open Scope Z_scope.

(** ** Vector types and AltiVec/VSX primitives *)

Module Vsx.

(** [vector unsigned long long]: two 64-bit elements, in array order. *)
Abbreviation v2du := (Z * Z)%type.
(** [vector unsigned int]: four 32-bit elements, in array order. *)
Abbreviation v4su := (list Z).
(** [vector unsigned char]: sixteen bytes, in array order. *)
Abbreviation v16qu := (list Z).

Definition u64 (x : Z) : Prop := 0 <= x < 2 ^ 64.
Definition wf_v2du (v : v2du) : Prop := u64 v.1 ∧ u64 v.2.

(** The [n] low bytes of [w], least significant first. *)
Fixpoint le_bytes (n : nat) (w : Z) : list Z :=
  match n with
  | O => []
  | S n' => w mod 256 :: le_bytes n' (w / 256)
  end.

(** The number whose little-endian bytes are [bs]. *)
Fixpoint le_word (bs : list Z) : Z :=
  match bs with
  | [] => 0
  | b :: bs' => b + 256 * le_word bs'
  end.

(** The cast [(v16qu)x]. *)
Definition to_v16qu (x : v2du) : v16qu := le_bytes 8 x.1 ++ le_bytes 8 x.2.
(** The cast [(v2du)b]. *)
Definition of_v16qu (b : v16qu) : v2du :=
  (le_word (take 8 b), le_word (take 8 (drop 8 b))).
(** The cast [(v4su)x]. *)
Definition to_v4su (x : v2du) : v4su :=
  [x.1 mod 2 ^ 32; (x.1 / 2 ^ 32) mod 2 ^ 32;
   x.2 mod 2 ^ 32; (x.2 / 2 ^ 32) mod 2 ^ 32].

Definition vec_xor (a b : v2du) : v2du := (Z.lxor a.1 b.1, Z.lxor a.2 b.2).

Definition vec_add (a b : v2du) : v2du :=
  ((a.1 + b.1) mod 2 ^ 64, (a.2 + b.2) mod 2 ^ 64).

(** Each element shifted by the matching element of [s], taken modulo 64. *)
Definition vec_sr (a s : v2du) : v2du :=
  (Z.shiftr a.1 (s.1 mod 64), Z.shiftr a.2 (s.2 mod 64)).

Definition vec_sl (a s : v2du) : v2du :=
  (Z.shiftl a.1 (s.1 mod 64) mod 2 ^ 64, Z.shiftl a.2 (s.2 mod 64) mod 2 ^ 64).

(** [vec_mule] on [vector unsigned int]: the products of the elements 0 and
    2, each a full 64-bit result. *)
Definition vec_mule (x y : v4su) : v2du :=
  (nth 0 x 0 * nth 0 y 0, nth 2 x 0 * nth 2 y 0).

(** [vec_perm a b p]: byte [i] of the result is byte [p[i] mod 32] of the
    32-byte concatenation of [a] and [b]. *)
Definition vec_perm (a b p : v16qu) : v16qu :=
  map (λ k, nth (Z.to_nat (k mod 32)) (a ++ b) 0) p.

End Vsx.

(** ** blake2/blamka-round-vsx.h *)

Module Blamka.
Import Vsx.

Definition ROT32_PERM : v16qu := [4;5;6;7; 0;1;2;3; 12;13;14;15; 8;9;10;11].
Definition ROT24_PERM : v16qu := [3;4;5;6;7;0;1;2; 11;12;13;14;15;8;9;10].
Definition ROT16_PERM : v16qu := [2;3;4;5;6;7;0;1; 10;11;12;13;14;15;8;9].
Definition ALIGNR8_01 : v16qu := [8;9;10;11;12;13;14;15; 16;17;18;19;20;21;22;23].
Definition ALIGNR8_10 : v16qu := [8;9;10;11;12;13;14;15; 16;17;18;19;20;21;22;23].

Definition fBlaMka_vsx (x y : v2du) : v2du :=
  let x32 := to_v4su x in
  let y32 := to_v4su y in
  let z := vec_mule x32 y32 in
  vec_add (vec_add x y) (vec_add z z).

(** The macro [VSX_ROTI_EPI64(x, c)]; [c] is the negated distance. *)
Definition VSX_ROTI_EPI64 (x : v2du) (c : Z) : v2du :=
  if - c =? 32 then of_v16qu (vec_perm (to_v16qu x) (to_v16qu x) ROT32_PERM)
  else if - c =? 24 then of_v16qu (vec_perm (to_v16qu x) (to_v16qu x) ROT24_PERM)
  else if - c =? 16 then of_v16qu (vec_perm (to_v16qu x) (to_v16qu x) ROT16_PERM)
  else if - c =? 63 then vec_xor (vec_sr x (63, 63)) (vec_add x x)
  else vec_xor (vec_sr x (- c, - c)) (vec_sl x (64 - - c, 64 - - c)).

(** The eight vector variables the round macros update in place. *)
Record regs : Type := Regs {
  A0 : v2du; B0 : v2du; C0 : v2du; D0 : v2du;
  A1 : v2du; B1 : v2du; C1 : v2du; D1 : v2du
}.

Definition G1_VSX (r : regs) : regs :=
  let a0 := fBlaMka_vsx (A0 r) (B0 r) in
  let a1 := fBlaMka_vsx (A1 r) (B1 r) in
  let d0 := vec_xor (D0 r) a0 in
  let d1 := vec_xor (D1 r) a1 in
  let d0 := VSX_ROTI_EPI64 d0 (-32) in
  let d1 := VSX_ROTI_EPI64 d1 (-32) in
  let c0 := fBlaMka_vsx (C0 r) d0 in
  let c1 := fBlaMka_vsx (C1 r) d1 in
  let b0 := vec_xor (B0 r) c0 in
  let b1 := vec_xor (B1 r) c1 in
  let b0 := VSX_ROTI_EPI64 b0 (-24) in
  let b1 := VSX_ROTI_EPI64 b1 (-24) in
  Regs a0 b0 c0 d0 a1 b1 c1 d1.

Definition G2_VSX (r : regs) : regs :=
  let a0 := fBlaMka_vsx (A0 r) (B0 r) in
  let a1 := fBlaMka_vsx (A1 r) (B1 r) in
  let d0 := vec_xor (D0 r) a0 in
  let d1 := vec_xor (D1 r) a1 in
  let d0 := VSX_ROTI_EPI64 d0 (-16) in
  let d1 := VSX_ROTI_EPI64 d1 (-16) in
  let c0 := fBlaMka_vsx (C0 r) d0 in
  let c1 := fBlaMka_vsx (C1 r) d1 in
  let b0 := vec_xor (B0 r) c0 in
  let b1 := vec_xor (B1 r) c1 in
  let b0 := VSX_ROTI_EPI64 b0 (-63) in
  let b1 := VSX_ROTI_EPI64 b1 (-63) in
  Regs a0 b0 c0 d0 a1 b1 c1 d1.

Definition DIAGONALIZE_VSX (r : regs) : regs :=
  let t0 := vec_perm (to_v16qu (B0 r)) (to_v16qu (B1 r)) ALIGNR8_01 in
  let t1 := vec_perm (to_v16qu (B1 r)) (to_v16qu (B0 r)) ALIGNR8_01 in
  let b0 := of_v16qu t0 in
  let b1 := of_v16qu t1 in
  let tmp := C0 r in
  let c0 := C1 r in
  let c1 := tmp in
  let t0 := vec_perm (to_v16qu (D0 r)) (to_v16qu (D1 r)) ALIGNR8_01 in
  let t1 := vec_perm (to_v16qu (D1 r)) (to_v16qu (D0 r)) ALIGNR8_01 in
  let d0 := of_v16qu t1 in
  let d1 := of_v16qu t0 in
  Regs (A0 r) b0 c0 d0 (A1 r) b1 c1 d1.

Definition UNDIAGONALIZE_VSX (r : regs) : regs :=
  let t0 := vec_perm (to_v16qu (B1 r)) (to_v16qu (B0 r)) ALIGNR8_01 in
  let t1 := vec_perm (to_v16qu (B0 r)) (to_v16qu (B1 r)) ALIGNR8_01 in
  let b0 := of_v16qu t0 in
  let b1 := of_v16qu t1 in
  let tmp := C0 r in
  let c0 := C1 r in
  let c1 := tmp in
  let t0 := vec_perm (to_v16qu (D1 r)) (to_v16qu (D0 r)) ALIGNR8_01 in
  let t1 := vec_perm (to_v16qu (D0 r)) (to_v16qu (D1 r)) ALIGNR8_01 in
  let d0 := of_v16qu t1 in
  let d1 := of_v16qu t0 in
  Regs (A0 r) b0 c0 d0 (A1 r) b1 c1 d1.

(** [BLAKE2_ROUND_VSX(A0, A1, B0, B1, C0, C1, D0, D1)]: the arguments are
    taken in the macro's order and handed to the quarter-rounds in theirs. *)
Definition BLAKE2_ROUND_VSX (a0 a1 b0 b1 c0 c1 d0 d1 : v2du) : regs :=
  let r := Regs a0 b0 c0 d0 a1 b1 c1 d1 in
  let r := G1_VSX r in
  let r := G2_VSX r in
  let r := DIAGONALIZE_VSX r in
  let r := G1_VSX r in
  let r := G2_VSX r in
  UNDIAGONALIZE_VSX r.

(** *** Scalar reading of the primitives, in the words of the specification *)

Definition lo32 (x : Z) : Z := x mod 2 ^ 32.

Definition f_spec (x y : Z) : Z := (x + y + 2 * (lo32 x * lo32 y)) mod 2 ^ 64.

(** Unsigned 64-bit right rotation, [(w >> c) | (w << (64 - c))]. *)
Definition rotr64 (w c : Z) : Z :=
  Z.lor (Z.shiftr w c) (Z.shiftl w (64 - c) mod 2 ^ 64).

(** One quarter-round on a scalar quadruple with rotation distances
    [r1] and [r2]. *)
Definition G_spec (r1 r2 : Z) (q : Z * Z * Z * Z) : Z * Z * Z * Z :=
  let '(a, b, c, d) := q in
  let a := f_spec a b in
  let d := rotr64 (Z.lxor d a) r1 in
  let c := f_spec c d in
  let b := rotr64 (Z.lxor b c) r2 in
  (a, b, c, d).

(** The scalar quadruples held by the eight vectors: element [j] of the
    vectors with suffix 0, then of those with suffix 1. *)
Definition quad0 (j : bool) (r : regs) : Z * Z * Z * Z :=
  if j then ((A0 r).2, (B0 r).2, (C0 r).2, (D0 r).2)
  else ((A0 r).1, (B0 r).1, (C0 r).1, (D0 r).1).
Definition quad1 (j : bool) (r : regs) : Z * Z * Z * Z :=
  if j then ((A1 r).2, (B1 r).2, (C1 r).2, (D1 r).2)
  else ((A1 r).1, (B1 r).1, (C1 r).1, (D1 r).1).

Definition wf_regs (r : regs) : Prop :=
  wf_v2du (A0 r) ∧ wf_v2du (B0 r) ∧ wf_v2du (C0 r) ∧ wf_v2du (D0 r) ∧
  wf_v2du (A1 r) ∧ wf_v2du (B1 r) ∧ wf_v2du (C1 r) ∧ wf_v2du (D1 r).

(** The eight vectors after one quarter-round on each of the four scalar
    quadruples they hold. *)
Definition G_lanes (r1 r2 : Z) (r : regs) : regs :=
  let q00 := G_spec r1 r2 (quad0 false r) in
  let q01 := G_spec r1 r2 (quad0 true r) in
  let q10 := G_spec r1 r2 (quad1 false r) in
  let q11 := G_spec r1 r2 (quad1 true r) in
  Regs (q00.1.1.1, q01.1.1.1) (q00.1.1.2, q01.1.1.2) (q00.1.2, q01.1.2) (q00.2, q01.2)
       (q10.1.1.1, q11.1.1.1) (q10.1.1.2, q11.1.1.2) (q10.1.2, q11.1.2) (q10.2, q11.2).

(** *** The round on sixteen words *)

(** The full quarter-round: [G1] followed by [G2]. *)
Definition G_full (q : Z * Z * Z * Z) : Z * Z * Z * Z :=
  G_spec 16 63 (G_spec 32 24 q).

(** The eight vectors that hold four given scalar quadruples. *)
Definition regs_of_quads (q00 q01 q10 q11 : Z * Z * Z * Z) : regs :=
  Regs (q00.1.1.1, q01.1.1.1) (q00.1.1.2, q01.1.1.2) (q00.1.2, q01.1.2) (q00.2, q01.2)
       (q10.1.1.1, q11.1.1.1) (q10.1.1.2, q11.1.1.2) (q10.1.2, q11.1.2) (q10.2, q11.2).

(** The sixteen words v0..v15 of the eight vectors, in the order in which
    [BLAKE2_ROUND_VSX] takes them: A0, A1, B0, B1, C0, C1, D0, D1. *)
Definition words_of_regs (r : regs) : list Z :=
  [(A0 r).1; (A0 r).2; (A1 r).1; (A1 r).2;
   (B0 r).1; (B0 r).2; (B1 r).1; (B1 r).2;
   (C0 r).1; (C0 r).2; (C1 r).1; (C1 r).2;
   (D0 r).1; (D0 r).2; (D1 r).1; (D1 r).2].

(** A quarter-round [g] on the words at four indices of [v]. *)
Definition G_at (g : Z * Z * Z * Z → Z * Z * Z * Z) (a b c d : nat)
    (v : list Z) : list Z :=
  let q := g (v !!! a, v !!! b, v !!! c, v !!! d) in
  <[d := q.2]> (<[c := q.1.2]> (<[b := q.1.1.2]> (<[a := q.1.1.1]> v))).

(** A function on scalar quadruples applied to the four quadruples held
    by the eight vectors. *)
Definition quads_map (g : Z * Z * Z * Z → Z * Z * Z * Z) (r : regs) : regs :=
  regs_of_quads (g (quad0 false r)) (g (quad0 true r))
                (g (quad1 false r)) (g (quad1 true r)).

(** The two lane permutations, on 64-bit elements. *)
Definition diag_lanes (r : regs) : regs :=
  Regs (A0 r) ((B0 r).2, (B1 r).1) (C1 r) ((D1 r).2, (D0 r).1)
       (A1 r) ((B1 r).2, (B0 r).1) (C0 r) ((D0 r).2, (D1 r).1).

Definition undiag_lanes (r : regs) : regs :=
  Regs (A0 r) ((B1 r).2, (B0 r).1) (C1 r) ((D0 r).2, (D1 r).1)
       (A1 r) ((B0 r).2, (B1 r).1) (C0 r) ((D1 r).2, (D0 r).1).

(** The scalar round on a 4x4 matrix of words stored row by row: the
    quarter-round on the four columns, then on the four diagonals. *)
Definition round_words (g : Z * Z * Z * Z → Z * Z * Z * Z) (v : list Z) : list Z :=
  let v := G_at g 0 4 8 12 v in
  let v := G_at g 1 5 9 13 v in
  let v := G_at g 2 6 10 14 v in
  let v := G_at g 3 7 11 15 v in
  let v := G_at g 0 5 10 15 v in
  let v := G_at g 1 6 11 12 v in
  let v := G_at g 2 7 8 13 v in
  G_at g 3 4 9 14 v.

(** Eight sample vectors, with extreme values among them. *)
Definition regs_sample : regs :=
  Regs (1, 2) (3, 4) (5, 6) (7, 8)
       (18446744073709551615, 10) (11, 9223372036854775808)
       (4294967296, 14) (15, 4294967295).

End Blamka.

(** ** opt-vsx.c *)

Module OptVsx.
Import Vsx Blamka.

(** Modelled from the spec: the constants of [argon2.h] and [core.h], which
    are not among the sources.  A block is 1024 bytes, that is 128 words of
    64 bits; an address block serves 128 pseudo-random values; a lane has
    four slices. *)
Definition ARGON2_BLOCK_SIZE : Z := 1024.
Definition ARGON2_QWORDS_IN_BLOCK : Z := ARGON2_BLOCK_SIZE / 8.
Definition ARGON2_ADDRESSES_IN_BLOCK : Z := 128.
Definition ARGON2_SYNC_POINTS : Z := 4.

Definition ARGON2_VSX_OWORDS_IN_BLOCK : Z := ARGON2_BLOCK_SIZE / 16.

(** The field [v] of a [block]: 128 words. *)
Abbreviation block := (list Z).
Abbreviation vsx_block_t := v2du.

Definition wf_block (b : block) : Prop :=
  length b = Z.to_nat ARGON2_QWORDS_IN_BLOCK ∧ Forall u64 b.
Definition wf_state (s : list vsx_block_t) : Prop :=
  length s = Z.to_nat ARGON2_VSX_OWORDS_IN_BLOCK.

(** [VSX_LOADU(v + off)] and [VSX_STOREU(v + off, val)]: two consecutive
    words, the first one in element 0. *)
Definition VSX_LOADU (v : block) (off : nat) : v2du :=
  (v !!! off, v !!! S off).
Definition VSX_STOREU (v : block) (off : nat) (val : v2du) : block :=
  <[S off := val.2]> (<[off := val.1]> v).

(** An array of 16-byte vectors that has not been written yet. *)
Definition fresh_vectors : list vsx_block_t :=
  replicate (Z.to_nat ARGON2_VSX_OWORDS_IN_BLOCK) (0, 0).

(** Body of the first loop of [fill_block] when [with_xor] is set; the pair
    is [(state, block_XY)]. *)
Definition xor_in_with (ref_block next_block : block)
    (acc : list vsx_block_t * list vsx_block_t) (i : nat)
    : list vsx_block_t * list vsx_block_t :=
  let state := <[i := vec_xor (acc.1 !!! i) (VSX_LOADU ref_block (i * 2))]> acc.1 in
  let block_XY := <[i := vec_xor (state !!! i) (VSX_LOADU next_block (i * 2))]> acc.2 in
  (state, block_XY).

(** Body of the first loop of [fill_block] when [with_xor] is clear. *)
Definition xor_in_plain (ref_block : block)
    (acc : list vsx_block_t * list vsx_block_t) (i : nat)
    : list vsx_block_t * list vsx_block_t :=
  let state := <[i := vec_xor (acc.1 !!! i) (VSX_LOADU ref_block (i * 2))]> acc.1 in
  let block_XY := <[i := state !!! i]> acc.2 in
  (state, block_XY).

(** One [BLAKE2_ROUND_VSX] on the eight elements [state[idx 0..7]]. *)
Definition round_at (idx : nat → nat) (state : list vsx_block_t)
    : list vsx_block_t :=
  let r := BLAKE2_ROUND_VSX
             (state !!! idx 0%nat) (state !!! idx 1%nat)
             (state !!! idx 2%nat) (state !!! idx 3%nat)
             (state !!! idx 4%nat) (state !!! idx 5%nat)
             (state !!! idx 6%nat) (state !!! idx 7%nat) in
  <[idx 7%nat := D1 r]> (<[idx 6%nat := D0 r]> (<[idx 5%nat := C1 r]>
  (<[idx 4%nat := C0 r]> (<[idx 3%nat := B1 r]> (<[idx 2%nat := B0 r]>
  (<[idx 1%nat := A1 r]> (<[idx 0%nat := A0 r]> state))))))).

(** The eight vectors a round at [idx] computes from [state], and the one
    written back to slot [k]. *)
Definition round_regs (idx : nat → nat) (state : list vsx_block_t) : regs :=
  BLAKE2_ROUND_VSX
    (state !!! idx 0%nat) (state !!! idx 1%nat)
    (state !!! idx 2%nat) (state !!! idx 3%nat)
    (state !!! idx 4%nat) (state !!! idx 5%nat)
    (state !!! idx 6%nat) (state !!! idx 7%nat).

Definition round_out (k : nat) (r : regs) : v2du :=
  match k with
  | 0%nat => A0 r | 1%nat => A1 r | 2%nat => B0 r | 3%nat => B1 r
  | 4%nat => C0 r | 5%nat => C1 r | 6%nat => D0 r | _ => D1 r
  end.

Definition row_rounds (state : list vsx_block_t) : list vsx_block_t :=
  foldl (λ st i, round_at (λ k, 8 * i + k)%nat st) state (seq 0 8).

Definition column_rounds (state : list vsx_block_t) : list vsx_block_t :=
  foldl (λ st i, round_at (λ k, 8 * k + i)%nat st) state (seq 0 8).

(** Body of the last loop of [fill_block]; the pair is
    [(state, next_block)]. *)
Definition xor_store (block_XY : list vsx_block_t)
    (acc : list vsx_block_t * block) (i : nat) : list vsx_block_t * block :=
  let state := <[i := vec_xor (acc.1 !!! i) (block_XY !!! i)]> acc.1 in
  (state, VSX_STOREU acc.2 (i * 2) (state !!! i)).

(** [fill_block(state, ref_block, next_block, with_xor)] returns the new
    [state] and the new contents of [*next_block].  Both input blocks are
    read only in the first loop and [*next_block] is written only in the
    last one, so the result is the same when the two pointers alias. *)
Definition fill_block (state : list vsx_block_t) (ref_block next_block : block)
    (with_xor : bool) : list vsx_block_t * block :=
  let n := Z.to_nat ARGON2_VSX_OWORDS_IN_BLOCK in
  let '(state, block_XY) :=
    if with_xor
    then foldl (xor_in_with ref_block next_block) (state, fresh_vectors) (seq 0 n)
    else foldl (xor_in_plain ref_block) (state, fresh_vectors) (seq 0 n) in
  let state := row_rounds state in
  let state := column_rounds state in
  foldl (xor_store block_XY) (state, next_block) (seq 0 n).

(** [next_addresses(address_block, input_block)] returns the new contents
    of both blocks. *)
Definition next_addresses (address_block input_block : block) : block * block :=
  let zero_block := fresh_vectors in
  let zero2_block := fresh_vectors in
  let input_block := <[6%nat := (input_block !!! 6%nat + 1) mod 2 ^ 64]> input_block in
  let address_block := (fill_block zero_block input_block address_block false).2 in
  let address_block := (fill_block zero2_block address_block address_block false).2 in
  (address_block, input_block).

(** *** Reading [fill_block] at the level of whole blocks *)

(** A block seen as 64 vectors, as [VSX_LOADU] reads it. *)
Definition vectors_of_block (b : block) : list vsx_block_t :=
  (λ i, VSX_LOADU b (i * 2)) <$> seq 0 (Z.to_nat ARGON2_VSX_OWORDS_IN_BLOCK).

(** The 128 words held by 64 vectors, as [VSX_STOREU] writes them. *)
Definition block_of_vectors (s : list vsx_block_t) : block :=
  s ≫= (λ v, [v.1; v.2]).

Definition xor_vectors (a b : list vsx_block_t) : list vsx_block_t :=
  zip_with vec_xor a b.

(** The eight row rounds followed by the eight column rounds. *)
Definition permutation_network (s : list vsx_block_t) : list vsx_block_t :=
  column_rounds (row_rounds s).

(** The output of the permutation for a state and a reference block: the
    permuted XOR of the two, XORed with its own input. *)
Definition compress (s : list vsx_block_t) (r : block) : list vsx_block_t :=
  let x := xor_vectors s (vectors_of_block r) in
  xor_vectors (permutation_network x) x.

(** [fill_block] in the words of the specification: with [accumulate] the
    next block is XORed into the state before the permutation, and that
    value is both permuted and kept as [pre_permutation]. *)
Definition fill_block_claimed (s : list vsx_block_t) (r n : block)
    (accumulate : bool) : list vsx_block_t * block :=
  let x := if accumulate
           then xor_vectors (xor_vectors s (vectors_of_block r)) (vectors_of_block n)
           else xor_vectors s (vectors_of_block r) in
  let pre_permutation := x in
  let out := xor_vectors (permutation_network x) pre_permutation in
  (out, block_of_vectors out).

(** Sample blocks: all words zero, and all zero but the first. *)
Definition zero_words : block := replicate (Z.to_nat ARGON2_QWORDS_IN_BLOCK) 0.
Definition unit_words : block := <[0%nat := 1]> zero_words.

(** The address block generated from an input block: two compressions
    from the zero state. *)
Definition address_of_input (input_block : block) : block :=
  block_of_vectors
    (compress fresh_vectors (block_of_vectors (compress fresh_vectors input_block))).

(** Modelled from the spec: the variants of [argon2_type] ([argon2.h] is not
    among the sources): data-dependent, data-independent and hybrid. *)
Inductive argon2_type : Type := Argon2_d | Argon2_i | Argon2_id.

Definition argon2_type_eqb (a b : argon2_type) : bool :=
  match a, b with
  | Argon2_d, Argon2_d | Argon2_i, Argon2_i | Argon2_id, Argon2_id => true
  | _, _ => false
  end.

(** Modelled from the spec: the fields of [argon2_instance_t] ([core.h] is
    not among the sources) that [fill_segment] reads.  The field [memory] is
    the state the function works on and is passed separately. *)
Record argon2_instance_t : Type := Instance {
  version : Z;
  passes : Z;
  memory_blocks : Z;
  segment_length : Z;
  lane_length : Z;
  lanes : Z;
  type : argon2_type
}.

(** Modelled from the spec: [argon2_position_t] ([core.h]). *)
Record argon2_position_t : Type := Position {
  pass : Z;
  lane : Z;
  slice : Z;
  index : Z
}.

(** Modelled from the spec: [init_block_value(b, in)] ([core.c] is not among
    the sources) sets every byte of the block to [in]. *)
Definition init_block_value (inb : Z) : block :=
  replicate (Z.to_nat ARGON2_QWORDS_IN_BLOCK) (le_word (replicate 8 inb)).

(** [memcpy(state, block->v, ARGON2_BLOCK_SIZE)]: the bytes of the block, in
    memory order, are cut into 16-byte vectors. *)
Definition block_bytes (b : block) : list Z := concat (map (le_bytes 8) b).

Fixpoint vectors_of_bytes (n : nat) (bs : list Z) : list vsx_block_t :=
  match n with
  | O => []
  | S n' => of_v16qu (take 16 bs) :: vectors_of_bytes n' (drop 16 bs)
  end.

Definition memcpy_state (b : block) : list vsx_block_t :=
  vectors_of_bytes (Z.to_nat ARGON2_VSX_OWORDS_IN_BLOCK)
                   (take (Z.to_nat ARGON2_BLOCK_SIZE) (block_bytes b)).

(** The locals of [fill_segment] that live across loop iterations, and the
    memory matrix [instance->memory]. *)
Record seg_state : Type := SegState {
  curr_offset : Z;
  prev_offset : Z;
  state : list vsx_block_t;
  address_block : block;
  input_block : block;
  memory : list block
}.

Section FillSegment.

(** [index_alpha] is an external collaborator ([core.c]); it reads the
    configuration and the position only. *)
Variable index_alpha : argon2_instance_t → argon2_position_t → Z → bool → Z.
(** Constants of [argon2.h]: the number of the older format revision and
    the numeric value of each variant. *)
Variable ARGON2_VERSION_10 : Z.
Variable type_code : argon2_type → Z.
(** The indeterminate contents of the locals [address_block] and
    [input_block] on entry. *)
Variable stack_address_block stack_input_block : block.

Definition data_independent_addressing
    (instance : argon2_instance_t) (position : argon2_position_t) : bool :=
  argon2_type_eqb (type instance) Argon2_i ||
  (argon2_type_eqb (type instance) Argon2_id && (pass position =? 0) &&
   (slice position <? ARGON2_SYNC_POINTS / 2)).

Definition starting_index (position : argon2_position_t) : Z :=
  if (0 =? pass position) && (0 =? slice position) then 2 else 0.

(** Lines 103-112: the input block under data-independent addressing. *)
Definition init_input_block
    (instance : argon2_instance_t) (position : argon2_position_t) : block :=
  <[5%nat := type_code (type instance)]> (<[4%nat := passes instance]>
  (<[3%nat := memory_blocks instance]> (<[2%nat := slice position]>
  (<[1%nat := lane position]> (<[0%nat := pass position]>
  (init_block_value 0)))))).

(** Lines 124-131. *)
Definition first_curr_offset
    (instance : argon2_instance_t) (position : argon2_position_t) : Z :=
  (lane position * lane_length instance +
   slice position * segment_length instance + starting_index position) mod 2 ^ 32.

Definition first_prev_offset
    (instance : argon2_instance_t) (position : argon2_position_t) : Z :=
  let curr_offset := first_curr_offset instance position in
  if 0 =? curr_offset mod lane_length instance
  then (curr_offset + lane_length instance - 1) mod 2 ^ 32
  else (curr_offset - 1) mod 2 ^ 32.

(** Everything before the loop (lines 98-133). *)
Definition fill_segment_init (instance : argon2_instance_t)
    (position : argon2_position_t) (mem : list block) : seg_state :=
  let dia := data_independent_addressing instance position in
  let input_block := if dia then init_input_block instance position
                     else stack_input_block in
  let '(address_block, input_block) :=
    if (0 =? pass position) && (0 =? slice position) then
      if dia then next_addresses stack_address_block input_block
      else (stack_address_block, input_block)
    else (stack_address_block, input_block) in
  let curr_offset := first_curr_offset instance position in
  let prev_offset := first_prev_offset instance position in
  SegState curr_offset prev_offset
           (memcpy_state (mem !!! Z.to_nat prev_offset))
           address_block input_block mem.

(** Lines 137-139. *)
Definition rotate_prev_offset (instance : argon2_instance_t) (s : seg_state) : Z :=
  if curr_offset s mod lane_length instance =? 1
  then (curr_offset s - 1) mod 2 ^ 32
  else prev_offset s.

(** Lines 141-148: the address block, the input block and [pseudo_rand];
    [prev] is [prev_offset] after lines 137-139. *)
Definition get_pseudo_rand (dia : bool) (s : seg_state) (prev i : Z)
    : block * block * Z :=
  if dia then
    let '(address_block, input_block) :=
      if i mod ARGON2_ADDRESSES_IN_BLOCK =? 0
      then next_addresses (address_block s) (input_block s)
      else (address_block s, input_block s) in
    (address_block, input_block,
     address_block !!! Z.to_nat (i mod ARGON2_ADDRESSES_IN_BLOCK))
  else
    (address_block s, input_block s,
     (memory s !!! Z.to_nat prev) !!! 0%nat).

(** Lines 150-154. *)
Definition get_ref_lane (instance : argon2_instance_t)
    (position : argon2_position_t) (pseudo_rand : Z) : Z :=
  let ref_lane := Z.shiftr pseudo_rand 32 mod lanes instance in
  if (pass position =? 0) && (slice position =? 0) then lane position
  else ref_lane.

(** Lines 156-161: the offset of [ref_block] in the matrix. *)
Definition get_ref_offset (instance : argon2_instance_t)
    (position : argon2_position_t) (pseudo_rand i : Z) : Z :=
  let ref_lane := get_ref_lane instance position pseudo_rand in
  let position := Position (pass position) (lane position) (slice position) i in
  let ref_index :=
    index_alpha instance position (Z.land pseudo_rand 0xFFFFFFFF)
                (ref_lane =? lane position) in
  (lane_length instance * ref_lane + ref_index) mod 2 ^ 64.

(** Lines 163-171. *)
Definition fill_by_version (instance : argon2_instance_t)
    (position : argon2_position_t) (st : list vsx_block_t)
    (ref_block curr_block : block) : list vsx_block_t * block :=
  if ARGON2_VERSION_10 =? version instance then
    fill_block st ref_block curr_block false
  else if 0 =? pass position then
    fill_block st ref_block curr_block false
  else
    fill_block st ref_block curr_block true.

(** One iteration of the loop for index [i], with the increments of the
    loop header. *)
Definition fill_segment_body (instance : argon2_instance_t)
    (position : argon2_position_t) (s : seg_state) (i : Z) : seg_state :=
  let dia := data_independent_addressing instance position in
  let prev := rotate_prev_offset instance s in
  let '(address_block, input_block, pseudo_rand) := get_pseudo_rand dia s prev i in
  let ref_offset := get_ref_offset instance position pseudo_rand i in
  let ref_block := memory s !!! Z.to_nat ref_offset in
  let curr_block := memory s !!! Z.to_nat (curr_offset s) in
  let '(st, curr_block) :=
    fill_by_version instance position (state s) ref_block curr_block in
  SegState ((curr_offset s + 1) mod 2 ^ 32) ((prev + 1) mod 2 ^ 32)
           st address_block input_block
           (<[Z.to_nat (curr_offset s) := curr_block]> (memory s)).

(** The loop state after the first [k] iterations. *)
Definition fill_segment_loop (instance : argon2_instance_t)
    (position : argon2_position_t) (s : seg_state) (k : Z) : seg_state :=
  foldl (fill_segment_body instance position) s (seqZ (starting_index position) k).

(** [fill_segment(instance, position)] on the memory matrix [mem]; a null
    [instance] is [None].  The loop runs [i] from [starting_index] up to
    [segment_length - 1]; [i] stays below [2^32], so [++i] never wraps. *)
Definition fill_segment (instance : option argon2_instance_t)
    (position : argon2_position_t) (mem : list block) : list block :=
  match instance with
  | None => mem
  | Some inst =>
      memory (fill_segment_loop inst position
                (fill_segment_init inst position mem)
                (segment_length inst - starting_index position))
  end.

(** *** Reading [fill_segment] against the specification *)

(** The offset of the reference block chosen in the iteration for [i]. *)
Definition iter_ref_offset (instance : argon2_instance_t)
    (position : argon2_position_t) (s : seg_state) (i : Z) : Z :=
  let dia := data_independent_addressing instance position in
  let prev := rotate_prev_offset instance s in
  get_ref_offset instance position (get_pseudo_rand dia s prev i).2 i.

(** The accumulate flag in the words of the specification. *)
Definition accumulate_spec (instance : argon2_instance_t)
    (position : argon2_position_t) : bool :=
  if (version instance =? ARGON2_VERSION_10) || (pass position =? 0)
  then false else true.

(** The configurations the orchestrator hands over: four segments per
    lane, a lane and a slice that exist, and a matrix whose offsets fit in
    32 bits. *)
Definition valid_instance (instance : argon2_instance_t)
    (position : argon2_position_t) : Prop :=
  0 < segment_length instance ∧
  lane_length instance = ARGON2_SYNC_POINTS * segment_length instance ∧
  0 <= slice position < ARGON2_SYNC_POINTS ∧
  0 <= lane position < lanes instance ∧
  lanes instance * lane_length instance < 2 ^ 32.

(** The offset that precedes [off] in the circular order of the lane of
    [position]. *)
Definition lane_pred (instance : argon2_instance_t)
    (position : argon2_position_t) (off : Z) : Z :=
  lane position * lane_length instance +
  (off - lane position * lane_length instance - 1) mod lane_length instance.

(** The in-loop update of [prev_offset] in the words of the specification:
    recomputed with lane wrap when [curr_offset] is on the first position
    of the lane. *)
Definition rotate_prev_offset_claimed (instance : argon2_instance_t)
    (s : seg_state) : Z :=
  if curr_offset s mod lane_length instance =? 0
  then (curr_offset s + lane_length instance - 1) mod 2 ^ 32
  else prev_offset s.

(** What the loop keeps true of the two offsets when index [i] is about to
    be processed: [p] is the position of [curr_offset] in the lane. *)
Definition offsets_inv (instance : argon2_instance_t)
    (position : argon2_position_t) (i : Z) (s : seg_state) : Prop :=
  let p := slice position * segment_length instance + i in
  curr_offset s = lane position * lane_length instance + p ∧
  ((p = 0 ∧ prev_offset s = curr_offset s + lane_length instance - 1) ∨
   p = 1 ∨
   (2 <= p ∧ prev_offset s = curr_offset s - 1)).

(** What the loop keeps true of the address stream when index [i] is about
    to be processed: the counter word counts the generations so far. *)
Definition addresses_inv (instance : argon2_instance_t)
    (position : argon2_position_t) (i : Z) (s : seg_state) : Prop :=
  input_block s =
    <[6%nat := (i + 127) / 128]> (init_input_block instance position) ∧
  length (address_block s) = Z.to_nat ARGON2_QWORDS_IN_BLOCK ∧
  (0 < i → address_block s = address_of_input (input_block s)).

(** *** The segment as a whole *)

(** The contract of the external [index_alpha]: the index it returns lies
    inside a lane. *)
Definition index_alpha_in_lane (instance : argon2_instance_t) : Prop :=
  ∀ position pseudo_rand same_lane,
    0 <= index_alpha instance position pseudo_rand same_lane
      < lane_length instance.

(** A matrix that holds every block of every lane, each of 128 words of
    64 bits. *)
Definition wf_matrix (instance : argon2_instance_t) (mem : list block) : Prop :=
  lanes instance * lane_length instance <= Z.of_nat (length mem) ∧
  Forall wf_block mem.

(** What the loop keeps true of the matrix and of the running state when
    index [i] is about to be processed; [mem] is the matrix on entry. *)
Definition segment_inv (instance : argon2_instance_t)
    (position : argon2_position_t) (mem : list block) (i : Z)
    (s : seg_state) : Prop :=
  offsets_inv instance position i s ∧
  length (memory s) = length mem ∧
  Forall wf_block (memory s) ∧
  state s =
    vectors_of_block
      (memory s !!! Z.to_nat (lane_pred instance position (curr_offset s))) ∧
  (∀ j : nat,
     Z.of_nat j < first_curr_offset instance position ∨
     curr_offset s <= Z.of_nat j →
     memory s !! j = mem !! j).

(** Two runs of the loop that differ at most in locals never read: the
    address block until its first generation, and both blocks under
    data-dependent addressing. *)
Definition locals_rel (instance : argon2_instance_t)
    (position : argon2_position_t) (i : Z) (s s' : seg_state) : Prop :=
  curr_offset s = curr_offset s' ∧
  prev_offset s = prev_offset s' ∧
  state s = state s' ∧
  memory s = memory s' ∧
  (data_independent_addressing instance position = true →
     input_block s = input_block s' ∧
     length (input_block s) = Z.to_nat ARGON2_QWORDS_IN_BLOCK ∧
     length (address_block s) = Z.to_nat ARGON2_QWORDS_IN_BLOCK ∧
     length (address_block s') = Z.to_nat ARGON2_QWORDS_IN_BLOCK ∧
     (i mod ARGON2_ADDRESSES_IN_BLOCK ≠ 0 →
        address_block s = address_block s')).

End FillSegment.

(** *** Sample data *)

Definition sample_index_alpha
    : argon2_instance_t → argon2_position_t → Z → bool → Z :=
  λ _ _ _ _, 0.

Definition sample_type_code (t : argon2_type) : Z :=
  match t with Argon2_d => 0 | Argon2_i => 1 | Argon2_id => 2 end.

(** One lane of eight blocks in four segments of two, two passes, the
    newer format revision (the older one being numbered 16). *)
Definition sample_instance (t : argon2_type) : argon2_instance_t :=
  Instance 19 2 8 2 8 1 t.

Definition sample_position (p sl : Z) : argon2_position_t := Position p 0 sl 0.

Definition sample_memory : list block := replicate 8 zero_words.

End OptVsx.

(** * Properties *)

(** ** Bytes, rotations and the quarter-rounds *)

Module BlamkaFacts.
Import Vsx Blamka.

Lemma le_word_le_bytes (n : nat) (w : Z) :
  le_word (le_bytes n w) = w mod 256 ^ Z.of_nat n.
Proof.
  revert w. induction n as [|n IH]; intros w.
  - simpl. by rewrite Z.mod_1_r.
  - cbn [le_bytes le_word]. rewrite IH.
    rewrite Nat2Z.inj_succ, Z.pow_succ_r by lia.
    rewrite Z.rem_mul_r by lia. lia.
Qed.

Lemma le_bytes_range (n : nat) (w : Z) :
  Forall (λ b, 0 <= b < 256) (le_bytes n w).
Proof.
  revert w. induction n as [|n IH]; intros w; cbn [le_bytes]; constructor.
  - apply Z.mod_pos_bound. lia.
  - apply IH.
Qed.

Lemma le_bytes_le_word (bs : list Z) :
  Forall (λ b, 0 <= b < 256) bs → le_bytes (length bs) (le_word bs) = bs.
Proof.
  induction 1 as [|b bs Hb _ IH]; [done|].
  cbn [length le_bytes le_word].
  replace ((b + 256 * le_word bs) mod 256) with b
    by (apply Z.mod_unique with (le_word bs); lia).
  replace ((b + 256 * le_word bs) / 256) with (le_word bs)
    by (apply Z.div_unique with b; lia).
  by rewrite IH.
Qed.

(** A 64-bit value is the little-endian number of its eight bytes. *)
Lemma u64_bytes (w : Z) :
  u64 w →
  ∃ b0 b1 b2 b3 b4 b5 b6 b7,
    le_bytes 8 w = [b0; b1; b2; b3; b4; b5; b6; b7] ∧
    w = le_word [b0; b1; b2; b3; b4; b5; b6; b7] ∧
    Forall (λ b, 0 <= b < 256) [b0; b1; b2; b3; b4; b5; b6; b7].
Proof.
  intros Hw.
  pose proof (le_word_le_bytes 8 w) as Hword.
  pose proof (le_bytes_range 8 w) as Hrange.
  rewrite Z.mod_small in Hword by (unfold u64 in Hw; simpl; lia).
  remember (le_bytes 8 w) as bs eqn:Hbs.
  cbn [le_bytes] in Hbs. subst bs.
  do 8 eexists. split; [reflexivity|]. split; [by symmetry|done].
Qed.

Lemma rotr64_arith (w c : Z) :
  u64 w → 0 < c < 64 →
  rotr64 w c = w / 2 ^ c + (w mod 2 ^ c) * 2 ^ (64 - c).
Proof.
  intros [Hw0 Hw1] Hc. unfold rotr64.
  rewrite Z.shiftr_div_pow2, Z.shiftl_mul_pow2 by lia.
  assert (Hsplit : 2 ^ 64 = 2 ^ c * 2 ^ (64 - c)).
  { rewrite <- Z.pow_add_r by lia. f_equal. lia. }
  assert (0 < 2 ^ c) by (apply Z.pow_pos_nonneg; lia).
  assert (0 < 2 ^ (64 - c)) by (apply Z.pow_pos_nonneg; lia).
  assert (Hhi : w * 2 ^ (64 - c) mod 2 ^ 64 = (w mod 2 ^ c) * 2 ^ (64 - c)).
  { rewrite Hsplit. rewrite Z.mul_mod_distr_r by lia. done. }
  rewrite Hhi.
  assert (Hq : 0 <= w / 2 ^ c < 2 ^ (64 - c)).
  { split; [apply Z.div_pos; lia|]. apply Z.div_lt_upper_bound; lia. }
  set (q := w / 2 ^ c) in *. set (r := w mod 2 ^ c).
  assert (Hland : Z.land q (r * 2 ^ (64 - c)) = 0).
  { apply Z.bits_inj'. intros n Hn. rewrite Z.land_spec, Z.bits_0.
    destruct (Z.lt_ge_cases n (64 - c)).
    - rewrite Z.mul_pow2_bits_low by lia. apply andb_false_r.
    - replace (Z.testbit q n) with false; [done|].
      symmetry. destruct (Z.eq_dec q 0) as [->|]; [apply Z.bits_0|].
      apply Z.bits_above_log2; [lia|].
      apply Z.log2_lt_pow2; [lia|].
      apply Z.lt_le_trans with (2 ^ (64 - c)); [lia|].
      apply Z.pow_le_mono_r; lia. }
  rewrite <- Z.lxor_lor by done. rewrite <- Z.add_nocarry_lxor by done. done.
Qed.

Lemma u64_lxor (a b : Z) : u64 a → u64 b → u64 (Z.lxor a b).
Proof.
  unfold u64. intros [Ha0 Ha1] [Hb0 Hb1]. split.
  - by apply Z.lxor_nonneg.
  - destruct (Z.eq_dec (Z.lxor a b) 0) as [->|Hne]; [lia|].
    apply Z.log2_lt_pow2; [pose proof (proj2 (Z.lxor_nonneg a b) (conj (λ _, Hb0) (λ _, Ha0))); lia|].
    eapply Z.le_lt_trans; [apply Z.log2_lxor; lia|].
    apply Z.max_lub_lt.
    + destruct (Z.eq_dec a 0) as [->|]; [simpl; lia|]. apply Z.log2_lt_pow2; lia.
    + destruct (Z.eq_dec b 0) as [->|]; [simpl; lia|]. apply Z.log2_lt_pow2; lia.
Qed.

Lemma u64_f_spec (x y : Z) : u64 (f_spec x y).
Proof. unfold u64, f_spec. apply Z.mod_pos_bound. lia. Qed.

Ltac bytes_of w :=
  let b0 := fresh "b" in let b1 := fresh "b" in let b2 := fresh "b" in
  let b3 := fresh "b" in let b4 := fresh "b" in let b5 := fresh "b" in
  let b6 := fresh "b" in let b7 := fresh "b" in
  let Hb := fresh "Hbytes" in let Hw := fresh "Hword" in let Hr := fresh "Hrange" in
  match goal with
  | H : u64 w |- _ =>
      destruct (u64_bytes w H) as (b0 & b1 & b2 & b3 & b4 & b5 & b6 & b7 & Hb & Hw & Hr);
      repeat (let Hb := fresh "Hb" in apply Forall_cons_1 in Hr; destruct Hr as [Hb Hr]);
      clear Hr
  end.

Lemma perm_rotr (w : Z) (p : list Z) (c : Z) :
  u64 w →
  (p = [4;5;6;7;0;1;2;3] ∧ c = 32) ∨ (p = [3;4;5;6;7;0;1;2] ∧ c = 24) ∨
  (p = [2;3;4;5;6;7;0;1] ∧ c = 16) →
  le_word (map (λ k, nth (Z.to_nat k) (le_bytes 8 w) 0) p) = rotr64 w c.
Proof.
  intros Hw Hp. rewrite rotr64_arith; [|done|lia].
  bytes_of w. rewrite Hbytes.
  destruct Hp as [[-> ->]|[[-> ->]|[-> ->]]].
  all: cbn [map]; repeat match goal with
              | |- context [Z.to_nat ?k] =>
                  let v := eval vm_compute in (Z.to_nat k) in
                  change (Z.to_nat k) with v
              end;
         cbn [map nth le_word].
  all: subst w; cbn [le_word].
  all: change (64 - 32) with 32; change (64 - 24) with 40; change (64 - 16) with 48.
  all: change (2 ^ 32) with 4294967296; change (2 ^ 24) with 16777216;
    change (2 ^ 40) with 1099511627776; change (2 ^ 16) with 65536;
    change (2 ^ 48) with 281474976710656.
  all: Z.div_mod_to_equations; lia.
Qed.

Ltac eval_selectors :=
  repeat match goal with
    | |- context [Z.to_nat ?k] =>
        let v := eval vm_compute in (Z.to_nat k) in
        change (Z.to_nat k) with v
    end.

Lemma roti_perm (x : v2du) (c : Z) :
  wf_v2du x → c = 32 ∨ c = 24 ∨ c = 16 →
  VSX_ROTI_EPI64 x (- c) = (rotr64 x.1 c, rotr64 x.2 c).
Proof.
  destruct x as [x1 x2]. intros [H1 H2] Hc. cbn [fst snd] in *.
  rewrite <- (perm_rotr x1 (match c with 32 => [4;5;6;7;0;1;2;3] | 24 => [3;4;5;6;7;0;1;2] | _ => [2;3;4;5;6;7;0;1] end) c),
          <- (perm_rotr x2 (match c with 32 => [4;5;6;7;0;1;2;3] | 24 => [3;4;5;6;7;0;1;2] | _ => [2;3;4;5;6;7;0;1] end) c);
    [|done|intuition (subst; auto)|done|intuition (subst; auto)].
  unfold VSX_ROTI_EPI64, to_v16qu, of_v16qu, vec_perm. cbn [fst snd le_bytes app].
  destruct Hc as [-> | [-> | ->]].
  all: match goal with |- context [if ?b then _ else _] =>
         let v := eval vm_compute in b in change b with v end; cbv iota.
  all: repeat match goal with |- context [if ?b then _ else _] =>
         let v := eval vm_compute in b in change b with v end; cbv iota.
  all: unfold ROT32_PERM, ROT24_PERM, ROT16_PERM; cbn [map]; eval_selectors;
    cbn [nth firstn skipn]; reflexivity.
Qed.

Lemma roti_63 (x : v2du) :
  wf_v2du x → VSX_ROTI_EPI64 x (- 63) = (rotr64 x.1 63, rotr64 x.2 63).
Proof.
  assert (Hone : ∀ w, u64 w →
            Z.lxor (Z.shiftr w 63) ((w + w) mod 2 ^ 64) = rotr64 w 63).
  { intros w [Hw0 Hw1]. unfold rotr64. change (64 - 63) with 1.
    rewrite (Z.shiftl_mul_pow2 w 1) by lia.
    replace (w * 2 ^ 1) with (w + w) by lia.
    apply Z.lxor_lor.
    rewrite Z.shiftr_div_pow2 by lia.
    assert (Hq : w / 2 ^ 63 = 0 ∨ w / 2 ^ 63 = 1)
      by (Z.div_mod_to_equations; lia).
    destruct Hq as [-> | ->]; [apply Z.land_0_l|].
    rewrite Z.land_comm. change 1 with (Z.ones 1).
    rewrite Z.land_ones by lia. Z.div_mod_to_equations; lia. }
  destruct x as [x1 x2]. intros [H1 H2]. cbn [fst snd] in *.
  unfold VSX_ROTI_EPI64, vec_xor, vec_sr, vec_add. cbn [fst snd].
  repeat match goal with |- context [if ?b then _ else _] =>
         let v := eval vm_compute in b in change b with v end; cbv iota.
  change (63 mod 64) with 63. by rewrite !Hone.
Qed.

Lemma perm_alignr (a b : v2du) :
  wf_v2du a → wf_v2du b →
  of_v16qu (vec_perm (to_v16qu a) (to_v16qu b) ALIGNR8_01) = (a.2, b.1).
Proof.
  destruct a as [a1 a2], b as [b1 b2]. intros [_ Ha] [Hb _]. cbn [fst snd] in *.
  unfold to_v16qu, of_v16qu, vec_perm, ALIGNR8_01. cbn [fst snd].
  bytes_of a2. bytes_of b1. rewrite Hbytes, Hbytes0.
  cbn [le_bytes app map]. eval_selectors. cbn [nth firstn skipn].
  by rewrite <- Hword, <- Hword0.
Qed.

Lemma fBlaMka_vsx_lanes (x y : v2du) :
  fBlaMka_vsx x y = (f_spec x.1 y.1, f_spec x.2 y.2).
Proof.
  destruct x as [x1 x2], y as [y1 y2].
  unfold fBlaMka_vsx, vec_add, vec_mule, to_v4su, f_spec, lo32.
  cbn [fst snd nth].
  f_equal; rewrite <- Z.add_mod by lia; f_equal; lia.
Qed.

Lemma wf_fBlaMka_vsx (x y : v2du) : wf_v2du (fBlaMka_vsx x y).
Proof. rewrite fBlaMka_vsx_lanes. split; apply u64_f_spec. Qed.

Lemma wf_vec_xor (a b : v2du) : wf_v2du a → wf_v2du b → wf_v2du (vec_xor a b).
Proof. intros [? ?] [? ?]. split; by apply u64_lxor. Qed.

Lemma G1_VSX_lanes (r : regs) : wf_regs r → G1_VSX r = G_lanes 32 24 r.
Proof.
  destruct r as [a0 b0 c0 d0 a1 b1 c1 d1].
  intros (Ha0 & Hb0 & Hc0 & Hd0 & Ha1 & Hb1 & Hc1 & Hd1). cbn [A0 B0 C0 D0 A1 B1 C1 D1] in *.
  unfold G1_VSX. cbn [A0 B0 C0 D0 A1 B1 C1 D1].
  rewrite !(roti_perm _ 32), !(roti_perm _ 24)
    by (auto using wf_vec_xor, wf_fBlaMka_vsx).
  rewrite !fBlaMka_vsx_lanes.
  destruct a0, b0, c0, d0, a1, b1, c1, d1. reflexivity.
Qed.

Lemma G2_VSX_lanes (r : regs) : wf_regs r → G2_VSX r = G_lanes 16 63 r.
Proof.
  destruct r as [a0 b0 c0 d0 a1 b1 c1 d1].
  intros (Ha0 & Hb0 & Hc0 & Hd0 & Ha1 & Hb1 & Hc1 & Hd1). cbn [A0 B0 C0 D0 A1 B1 C1 D1] in *.
  unfold G2_VSX. cbn [A0 B0 C0 D0 A1 B1 C1 D1].
  rewrite !(roti_perm _ 16), !roti_63
    by (auto using wf_vec_xor, wf_fBlaMka_vsx).
  rewrite !fBlaMka_vsx_lanes.
  destruct a0, b0, c0, d0, a1, b1, c1, d1. reflexivity.
Qed.

(** [rotr64] moves bit [i + c] (modulo 64) of its argument to bit [i]. *)
Lemma rotr64_testbit (w c i : Z) :
  u64 w → 0 < c < 64 → 0 <= i < 64 →
  Z.testbit (rotr64 w c) i = Z.testbit w ((i + c) mod 64).
Proof.
  intros [Hw0 Hw1] Hc Hi. unfold rotr64.
  rewrite Z.lor_spec, Z.shiftr_spec, Z.testbit_mod_pow2 by lia.
  rewrite Z.shiftl_spec by lia.
  assert (Hhigh : ∀ k, 64 <= k → Z.testbit w k = false).
  { intros k Hk. destruct (Z.eq_dec w 0) as [->|]; [apply Z.bits_0|].
    apply Z.bits_above_log2; [lia|].
    apply Z.lt_le_trans with 64; [apply Z.log2_lt_pow2; lia|lia]. }
  destruct (Z.lt_ge_cases (i + c) 64).
  - rewrite (Z.testbit_neg_r w (i - (64 - c))) by lia.
    rewrite andb_false_r, orb_false_r. by rewrite Z.mod_small by lia.
  - rewrite Hhigh by lia. simpl.
    replace (i <? 64) with true by (symmetry; apply Z.ltb_lt; lia). simpl.
    f_equal. apply Z.mod_unique with 1; lia.
Qed.

(** The primitives on small inputs. *)
Example fBlaMka_vsx_sample :
  fBlaMka_vsx (1, 2 ^ 32 + 3) (2, 2 ^ 64 - 1) =
    (7, (2 ^ 32 + 3 + (2 ^ 64 - 1) + 2 * (3 * (2 ^ 32 - 1))) mod 2 ^ 64).
Proof. reflexivity. Qed.

Example VSX_ROTI_EPI64_sample :
  VSX_ROTI_EPI64 (1, 2 ^ 63) (-24) = (2 ^ 40, 2 ^ 39) ∧
  VSX_ROTI_EPI64 (1, 2 ^ 63) (-63) = (2, 1).
Proof. split; reflexivity. Qed.

(** C2.  On each 64-bit element, [fBlaMka_vsx] computes
    [f(x,y) = (x + y + 2 * (lo32 x * lo32 y)) mod 2^64], with [lo32] the low
    32 bits read as an unsigned number; the result wraps around and is
    again a 64-bit value. *)
Theorem fBlaMka_vsx_computes_f (x0 x1 y0 y1 : Z) :
  fBlaMka_vsx (x0, x1) (y0, y1) =
    ((x0 + y0 + 2 * (lo32 x0 * lo32 y0)) mod 2 ^ 64,
     (x1 + y1 + 2 * (lo32 x1 * lo32 y1)) mod 2 ^ 64) ∧
  wf_v2du (fBlaMka_vsx (x0, x1) (y0, y1)).
Proof.
  split; [apply (fBlaMka_vsx_lanes (x0, x1) (y0, y1))|apply wf_fBlaMka_vsx].
Qed.

(** C3.  On every scalar quadruple (A,B,C,D) held by the eight vectors,
    [G1_VSX] computes A = f(A,B); D = rotr64(D xor A, 32); C = f(C,D);
    B = rotr64(B xor C, 24), and [G2_VSX] the same sequence with the
    distances 16 and 63. *)
Theorem G1_G2_VSX_quarter_rounds (r : regs) :
  wf_regs r →
  (∀ j, quad0 j (G1_VSX r) = G_spec 32 24 (quad0 j r) ∧
        quad1 j (G1_VSX r) = G_spec 32 24 (quad1 j r)) ∧
  (∀ j, quad0 j (G2_VSX r) = G_spec 16 63 (quad0 j r) ∧
        quad1 j (G2_VSX r) = G_spec 16 63 (quad1 j r)).
Proof.
  intros Hr. rewrite G1_VSX_lanes, G2_VSX_lanes by done.
  destruct r as [[] [] [] [] [] [] [] []].
  split; intros []; split; reflexivity.
Qed.

Lemma G1_G2_VSX_quarter_rounds_witness :
  wf_regs regs_sample ∧
  (∀ j, quad0 j (G1_VSX regs_sample) = G_spec 32 24 (quad0 j regs_sample) ∧
        quad1 j (G1_VSX regs_sample) = G_spec 32 24 (quad1 j regs_sample)) ∧
  (∀ j, quad0 j (G2_VSX regs_sample) = G_spec 16 63 (quad0 j regs_sample) ∧
        quad1 j (G2_VSX regs_sample) = G_spec 16 63 (quad1 j regs_sample)).
Proof.
  assert (Hwf : wf_regs regs_sample)
    by (unfold wf_regs, wf_v2du, u64; simpl; lia).
  split; [exact Hwf|exact (G1_G2_VSX_quarter_rounds regs_sample Hwf)].
Defined.

Lemma DIAGONALIZE_VSX_lanes (r : regs) :
  wf_regs r →
  DIAGONALIZE_VSX r =
    Regs (A0 r) ((B0 r).2, (B1 r).1) (C1 r) ((D1 r).2, (D0 r).1)
         (A1 r) ((B1 r).2, (B0 r).1) (C0 r) ((D0 r).2, (D1 r).1).
Proof.
  intros (Ha0 & Hb0 & Hc0 & Hd0 & Ha1 & Hb1 & Hc1 & Hd1).
  unfold DIAGONALIZE_VSX. by rewrite !perm_alignr.
Qed.

Lemma UNDIAGONALIZE_VSX_lanes (r : regs) :
  wf_regs r →
  UNDIAGONALIZE_VSX r =
    Regs (A0 r) ((B1 r).2, (B0 r).1) (C1 r) ((D0 r).2, (D1 r).1)
         (A1 r) ((B0 r).2, (B1 r).1) (C0 r) ((D1 r).2, (D0 r).1).
Proof.
  intros (Ha0 & Hb0 & Hc0 & Hd0 & Ha1 & Hb1 & Hc1 & Hd1).
  unfold UNDIAGONALIZE_VSX. by rewrite !perm_alignr.
Qed.

Lemma wf_DIAGONALIZE_VSX (r : regs) : wf_regs r → wf_regs (DIAGONALIZE_VSX r).
Proof.
  intros Hr. rewrite DIAGONALIZE_VSX_lanes by done.
  unfold wf_regs, wf_v2du in *. cbn [A0 B0 C0 D0 A1 B1 C1 D1 fst snd]. tauto.
Qed.

(** C4.  Undiagonalization after diagonalization gives back the eight
    vectors, byte for byte. *)
Theorem UNDIAGONALIZE_DIAGONALIZE (r : regs) :
  wf_regs r →
  UNDIAGONALIZE_VSX (DIAGONALIZE_VSX r) = r ∧
  to_v16qu <$> [B0 (UNDIAGONALIZE_VSX (DIAGONALIZE_VSX r));
                B1 (UNDIAGONALIZE_VSX (DIAGONALIZE_VSX r));
                D0 (UNDIAGONALIZE_VSX (DIAGONALIZE_VSX r));
                D1 (UNDIAGONALIZE_VSX (DIAGONALIZE_VSX r))] =
  to_v16qu <$> [B0 r; B1 r; D0 r; D1 r].
Proof.
  intros Hr.
  assert (Heq : UNDIAGONALIZE_VSX (DIAGONALIZE_VSX r) = r).
  { rewrite UNDIAGONALIZE_VSX_lanes by by apply wf_DIAGONALIZE_VSX.
    rewrite DIAGONALIZE_VSX_lanes by done.
    destruct r as [[] [] [] [] [] [] [] []]. reflexivity. }
  by rewrite Heq.
Qed.

Lemma UNDIAGONALIZE_DIAGONALIZE_witness :
  wf_regs regs_sample ∧
  UNDIAGONALIZE_VSX (DIAGONALIZE_VSX regs_sample) = regs_sample.
Proof.
  assert (Hwf : wf_regs regs_sample)
    by (unfold wf_regs, wf_v2du, u64; simpl; lia).
  split; [exact Hwf|exact (proj1 (UNDIAGONALIZE_DIAGONALIZE regs_sample Hwf))].
Defined.

End BlamkaFacts.

(** ** The mixing core *)

Module FillBlockFacts.
Import Vsx Blamka OptVsx.

Abbreviation n_vectors := (Z.to_nat ARGON2_VSX_OWORDS_IN_BLOCK).

(** Generic loop invariant for a [for (i = 0; i < n; i++)] loop. *)
Lemma foldl_seq_inv {S : Type} (body : S → nat → S) (inv : nat → S) (n : nat) :
  (∀ k, (k < n)%nat → body (inv k) k = inv (Datatypes.S k)) →
  foldl body (inv 0%nat) (seq 0 n) = inv n.
Proof.
  induction n as [|n IH]; intros Hstep; [done|].
  rewrite seq_S, foldl_app. cbn [foldl Nat.add].
  rewrite IH by (intros; apply Hstep; lia). apply Hstep. lia.
Qed.

Lemma insert_take_drop {A : Type} (new old : list A) (k : nat) (x : A) :
  new !! k = Some x → (k < length old)%nat →
  <[k := x]> (take k new ++ drop k old) = take (S k) new ++ drop (S k) old.
Proof.
  intros Hnew Hold.
  destruct (lookup_lt_is_Some_2 old k Hold) as [y Hy].
  rewrite (drop_S old y k Hy), (take_S_r new k x Hnew).
  assert (Hlen : length (take k new) = k).
  { rewrite length_take. apply lookup_lt_Some in Hnew. lia. }
  rewrite insert_app_r_alt by lia. rewrite Hlen, Nat.sub_diag. cbn [insert list_insert].
  by rewrite <- app_assoc.
Qed.

Lemma lookup_total_take_drop {A : Type} `{Inhabited A} (new old : list A) (k : nat) :
  (k <= length new)%nat → (take k new ++ drop k old) !!! k = old !!! k.
Proof.
  intros Hk. rewrite !list_lookup_total_alt.
  rewrite lookup_app_r by (rewrite length_take; lia).
  rewrite length_take, lookup_drop. do 2 f_equal. lia.
Qed.

Lemma take_drop_all {A : Type} (new old : list A) :
  length old = length new → take (length new) new ++ drop (length new) old = new.
Proof.
  intros Hlen. rewrite firstn_all, drop_ge by lia. apply app_nil_r.
Qed.

Lemma length_vectors_of_block (b : block) : length (vectors_of_block b) = n_vectors.
Proof. unfold vectors_of_block. by rewrite length_fmap, length_seq. Qed.

Lemma length_xor_vectors (a b : list vsx_block_t) :
  length a = length b → length (xor_vectors a b) = length a.
Proof. intros Hlen. unfold xor_vectors. by apply length_zip_with_l_eq. Qed.

Lemma lookup_xor_vectors (a b : list vsx_block_t) (k : nat) :
  (k < length a)%nat → length a = length b →
  xor_vectors a b !! k = Some (vec_xor (a !!! k) (b !!! k)).
Proof.
  intros Hk Hlen. unfold xor_vectors. apply lookup_zip_with_Some.
  exists (a !!! k), (b !!! k).
  split_and!; [done|by apply list_lookup_lookup_total_lt|].
  apply list_lookup_lookup_total_lt. lia.
Qed.

Lemma lookup_total_vectors_of_block (b : block) (k : nat) :
  (k < n_vectors)%nat → vectors_of_block b !!! k = VSX_LOADU b (k * 2).
Proof.
  intros Hk. apply list_lookup_total_correct. unfold vectors_of_block.
  rewrite list_lookup_fmap, lookup_seq_lt by done. done.
Qed.

Lemma lookup_total_S_take_drop {A : Type} `{Inhabited A}
    (new old : list A) (k : nat) (x : A) :
  new !! k = Some x → (take (S k) new ++ drop (S k) old) !!! k = x.
Proof.
  intros Hnew. apply list_lookup_total_correct.
  rewrite lookup_app_l by (rewrite length_take; apply lookup_lt_Some in Hnew; lia).
  rewrite lookup_take_lt by lia. done.
Qed.

Lemma length_fresh_vectors : length fresh_vectors = n_vectors.
Proof. apply length_replicate. Qed.

(** The first loop of [fill_block], without and with [with_xor]. *)
Lemma xor_in_plain_loop (s : list vsx_block_t) (r : block) :
  wf_state s →
  foldl (xor_in_plain r) (s, fresh_vectors) (seq 0 n_vectors) =
    (xor_vectors s (vectors_of_block r), xor_vectors s (vectors_of_block r)).
Proof.
  unfold wf_state. intros Hs.
  set (R := xor_vectors s (vectors_of_block r)).
  assert (HR : length R = n_vectors)
    by (unfold R; rewrite length_xor_vectors; rewrite ?length_vectors_of_block; done).
  pose (inv := λ k : nat, (take k R ++ drop k s, take k R ++ drop k fresh_vectors)).
  change (s, fresh_vectors) with (inv 0%nat).
  rewrite (foldl_seq_inv (xor_in_plain r) inv).
  - unfold inv. rewrite <- HR at 1 2 3 4.
    by rewrite !take_drop_all by (rewrite ?length_fresh_vectors; lia).
  - intros k Hk. unfold inv, xor_in_plain. cbn [fst snd].
    assert (Hlook : R !! k = Some (vec_xor (s !!! k) (VSX_LOADU r (k * 2)))).
    { unfold R. rewrite lookup_xor_vectors
        by (rewrite ?length_vectors_of_block; lia).
      by rewrite lookup_total_vectors_of_block. }
    rewrite lookup_total_take_drop by lia.
    rewrite (insert_take_drop R s k _ Hlook) by lia.
    rewrite (lookup_total_S_take_drop R s k _ Hlook).
    by rewrite (insert_take_drop R fresh_vectors k _ Hlook)
      by (rewrite length_fresh_vectors; lia).
Qed.

Lemma xor_in_with_loop (s : list vsx_block_t) (r n : block) :
  wf_state s →
  foldl (xor_in_with r n) (s, fresh_vectors) (seq 0 n_vectors) =
    (xor_vectors s (vectors_of_block r),
     xor_vectors (xor_vectors s (vectors_of_block r)) (vectors_of_block n)).
Proof.
  unfold wf_state. intros Hs.
  set (R := xor_vectors s (vectors_of_block r)).
  assert (HR : length R = n_vectors)
    by (unfold R; rewrite length_xor_vectors; rewrite ?length_vectors_of_block; done).
  set (X := xor_vectors R (vectors_of_block n)).
  assert (HX : length X = n_vectors)
    by (unfold X; rewrite length_xor_vectors; rewrite ?length_vectors_of_block; done).
  pose (inv := λ k : nat, (take k R ++ drop k s, take k X ++ drop k fresh_vectors)).
  change (s, fresh_vectors) with (inv 0%nat).
  rewrite (foldl_seq_inv (xor_in_with r n) inv).
  - unfold inv. rewrite <- HR at 1 2. rewrite <- HX at 1 2.
    by rewrite !take_drop_all by (rewrite ?length_fresh_vectors; lia).
  - intros k Hk. unfold inv, xor_in_with. cbn [fst snd].
    assert (Hlook : R !! k = Some (vec_xor (s !!! k) (VSX_LOADU r (k * 2)))).
    { unfold R. rewrite lookup_xor_vectors
        by (rewrite ?length_vectors_of_block; lia).
      by rewrite lookup_total_vectors_of_block. }
    assert (HlookX : X !! k = Some (vec_xor (R !!! k) (VSX_LOADU n (k * 2)))).
    { unfold X. rewrite lookup_xor_vectors
        by (rewrite ?length_vectors_of_block; lia).
      by rewrite lookup_total_vectors_of_block. }
    rewrite lookup_total_take_drop by lia.
    rewrite (insert_take_drop R s k _ Hlook) by lia.
    rewrite (lookup_total_S_take_drop R s k _ Hlook).
    rewrite <- (list_lookup_total_correct R k _ Hlook).
    by rewrite (insert_take_drop X fresh_vectors k _ HlookX)
      by (rewrite length_fresh_vectors; lia).
Qed.

Lemma length_round_at (idx : nat → nat) (s : list vsx_block_t) :
  length (round_at idx s) = length s.
Proof. unfold round_at. by rewrite !length_insert. Qed.

Lemma length_row_rounds (s : list vsx_block_t) : length (row_rounds s) = length s.
Proof.
  unfold row_rounds. generalize (seq 0 8). intros l. revert s.
  induction l as [|i l IH]; intros s; [done|].
  cbn [foldl]. by rewrite IH, length_round_at.
Qed.

Lemma length_column_rounds (s : list vsx_block_t) :
  length (column_rounds s) = length s.
Proof.
  unfold column_rounds. generalize (seq 0 8). intros l. revert s.
  induction l as [|i l IH]; intros s; [done|].
  cbn [foldl]. by rewrite IH, length_round_at.
Qed.

Lemma length_permutation_network (s : list vsx_block_t) :
  length (permutation_network s) = length s.
Proof.
  unfold permutation_network. by rewrite length_column_rounds, length_row_rounds.
Qed.

Lemma length_block_of_vectors (s : list vsx_block_t) :
  length (block_of_vectors s) = (length s * 2)%nat.
Proof.
  unfold block_of_vectors. induction s as [|v s IH]; [done|].
  cbn. cbn in IH. by rewrite IH.
Qed.

Lemma lookup_block_of_vectors (s : list vsx_block_t) (k : nat) (v : vsx_block_t) :
  s !! k = Some v →
  block_of_vectors s !! (k * 2)%nat = Some v.1 ∧
  block_of_vectors s !! S (k * 2) = Some v.2.
Proof.
  unfold block_of_vectors. revert k. induction s as [|w s IH]; intros k Hk; [done|].
  destruct k as [|k].
  - injection Hk as ->. done.
  - cbn in Hk. apply IH in Hk. exact Hk.
Qed.

(** The last loop of [fill_block]. *)
Lemma xor_store_loop (p xy : list vsx_block_t) (n : block) :
  length p = n_vectors → length xy = n_vectors →
  length n = Z.to_nat ARGON2_QWORDS_IN_BLOCK →
  foldl (xor_store xy) (p, n) (seq 0 n_vectors) =
    (xor_vectors p xy, block_of_vectors (xor_vectors p xy)).
Proof.
  intros Hp Hxy Hn.
  set (out := xor_vectors p xy).
  assert (Hout : length out = n_vectors)
    by (unfold out; rewrite length_xor_vectors; lia).
  set (W := block_of_vectors out).
  assert (HW : length W = (n_vectors * 2)%nat)
    by (unfold W; rewrite length_block_of_vectors; lia).
  assert (Hn' : length n = (n_vectors * 2)%nat) by (rewrite Hn; reflexivity).
  pose (inv := λ k : nat,
          (take k out ++ drop k p, take (k * 2) W ++ drop (k * 2) n)).
  change (p, n) with (inv 0%nat).
  rewrite (foldl_seq_inv (xor_store xy) inv).
  - unfold inv. rewrite <- Hout at 1 2. rewrite <- HW.
    by rewrite !take_drop_all by lia.
  - intros k Hk. unfold inv, xor_store, VSX_STOREU. cbn [fst snd].
    assert (Hlook : out !! k = Some (vec_xor (p !!! k) (xy !!! k)))
      by (unfold out; apply lookup_xor_vectors; lia).
    destruct (lookup_block_of_vectors out k _ Hlook) as [Hlo Hhi].
    rewrite lookup_total_take_drop by lia.
    rewrite (insert_take_drop out p k _ Hlook) by lia.
    rewrite (lookup_total_S_take_drop out p k _ Hlook).
    rewrite (insert_take_drop W n (k * 2) _ Hlo) by lia.
    by rewrite (insert_take_drop W n (S (k * 2)) _ Hhi) by lia.
Qed.

Lemma fill_block_eq (s : list vsx_block_t) (r n : block) (with_xor : bool) :
  wf_state s →
  length r = Z.to_nat ARGON2_QWORDS_IN_BLOCK →
  length n = Z.to_nat ARGON2_QWORDS_IN_BLOCK →
  let x := xor_vectors s (vectors_of_block r) in
  let pre_permutation :=
    if with_xor then xor_vectors x (vectors_of_block n) else x in
  let out := xor_vectors (permutation_network x) pre_permutation in
  fill_block s r n with_xor = (out, block_of_vectors out).
Proof.
  intros Hs Hr Hn x pre out. unfold fill_block.
  assert (Hx : length x = n_vectors)
    by (unfold x; rewrite length_xor_vectors; rewrite ?length_vectors_of_block; done).
  destruct with_xor.
  - rewrite xor_in_with_loop by done. fold x.
    apply xor_store_loop; [by rewrite length_column_rounds, length_row_rounds| |done].
    rewrite length_xor_vectors; rewrite ?length_vectors_of_block; done.
  - rewrite xor_in_plain_loop by done. fold x.
    apply xor_store_loop; [by rewrite length_column_rounds, length_row_rounds|done|done].
Qed.

Lemma xor_vectors_assoc (a b c : list vsx_block_t) :
  xor_vectors (xor_vectors a b) c = xor_vectors a (xor_vectors b c).
Proof.
  unfold xor_vectors. revert b c.
  induction a as [|x a IH]; intros [|y b] [|z c]; try done.
  cbn [zip_with]. rewrite IH. f_equal.
  unfold vec_xor. cbn [fst snd]. by rewrite !Z.lxor_assoc.
Qed.

Lemma block_of_vectors_xor (a b : list vsx_block_t) :
  block_of_vectors (xor_vectors a b) =
    zip_with Z.lxor (block_of_vectors a) (block_of_vectors b).
Proof.
  unfold block_of_vectors, xor_vectors. revert b.
  induction a as [|x a IH]; intros [|y b]; try done.
  cbn. cbn in IH. by rewrite IH.
Qed.

Lemma block_of_vectors_of_block (b : block) :
  length b = Z.to_nat ARGON2_QWORDS_IN_BLOCK →
  block_of_vectors (vectors_of_block b) = b.
Proof.
  intros Hb. apply list_eq_same_length with (Z.to_nat ARGON2_QWORDS_IN_BLOCK);
    [done|by rewrite length_block_of_vectors, length_vectors_of_block|].
  intros j x y Hj Hx Hy.
  assert (Hvec : vectors_of_block b !! (j / 2)%nat =
                 Some (VSX_LOADU b ((j / 2) * 2))).
  { unfold vectors_of_block. rewrite list_lookup_fmap, lookup_seq_lt; [done|].
    apply Nat.Div0.div_lt_upper_bound. exact Hj. }
  destruct (lookup_block_of_vectors _ _ _ Hvec) as [Hlo Hhi].
  pose proof (Nat.div_mod_eq j 2) as Hdiv.
  assert (Hmod : (j mod 2 = 0 ∨ j mod 2 = 1)%nat)
    by (pose proof (Nat.mod_upper_bound j 2); lia).
  unfold VSX_LOADU in Hlo, Hhi. cbn [fst snd] in Hlo, Hhi.
  destruct Hmod as [Hm|Hm].
  - replace (j / 2 * 2)%nat with j in Hlo by lia.
    rewrite Hlo in Hx. rewrite (list_lookup_total_correct _ _ _ Hy) in Hx.
    by injection Hx.
  - replace (S (j / 2 * 2))%nat with j in Hhi by lia.
    rewrite Hhi in Hx. rewrite (list_lookup_total_correct _ _ _ Hy) in Hx.
    by injection Hx.
Qed.

(** Without [with_xor] the next block is overwritten with the output of
    the permutation. *)
Lemma fill_block_plain (s : list vsx_block_t) (r n : block) :
  wf_state s →
  length r = Z.to_nat ARGON2_QWORDS_IN_BLOCK →
  length n = Z.to_nat ARGON2_QWORDS_IN_BLOCK →
  fill_block s r n false = (compress s r, block_of_vectors (compress s r)).
Proof.
  intros Hs Hr Hn. rewrite fill_block_eq by assumption.
  unfold compress. cbv zeta. reflexivity.
Qed.

(** With [with_xor] the output of the permutation is XORed into the
    contents of the next block. *)
Lemma fill_block_accumulate (s : list vsx_block_t) (r n : block) :
  wf_state s →
  length r = Z.to_nat ARGON2_QWORDS_IN_BLOCK →
  length n = Z.to_nat ARGON2_QWORDS_IN_BLOCK →
  fill_block s r n true =
    (xor_vectors (compress s r) (vectors_of_block n),
     zip_with Z.lxor (block_of_vectors (compress s r)) n).
Proof.
  intros Hs Hr Hn. rewrite fill_block_eq by assumption.
  unfold compress. cbv zeta. rewrite <- xor_vectors_assoc.
  rewrite block_of_vectors_xor, block_of_vectors_of_block by assumption.
  reflexivity.
Qed.

Lemma length_fill_block_state (s : list vsx_block_t) (r n : block) (with_xor : bool) :
  wf_state s →
  length r = Z.to_nat ARGON2_QWORDS_IN_BLOCK →
  length n = Z.to_nat ARGON2_QWORDS_IN_BLOCK →
  wf_state (fill_block s r n with_xor).1 ∧
  length (fill_block s r n with_xor).2 = Z.to_nat ARGON2_QWORDS_IN_BLOCK.
Proof.
  intros Hs Hr Hn. rewrite fill_block_eq by assumption. cbv zeta. cbn [fst snd].
  assert (Hx : length (xor_vectors s (vectors_of_block r)) = n_vectors)
    by (rewrite length_xor_vectors; rewrite ?length_vectors_of_block; done).
  assert (Hout : ∀ pre, length pre = n_vectors →
            length (xor_vectors (permutation_network
                      (xor_vectors s (vectors_of_block r))) pre) = n_vectors).
  { intros pre Hpre.
    rewrite length_xor_vectors; rewrite length_permutation_network; lia. }
  unfold wf_state. rewrite length_block_of_vectors.
  destruct with_xor; rewrite Hout; try done.
  rewrite length_xor_vectors; rewrite ?length_vectors_of_block; done.
Qed.

(** C1, as amended.  [fill_block] XORs the state with the reference block
    into x; [pre_permutation] is x, and x XOR the old next block when
    [with_xor] is set; the permutation network is applied to x itself, which
    never includes the next block; the permuted state XOR [pre_permutation]
    is written to the next block and kept as the new state. *)
Theorem fill_block_amended (s : list vsx_block_t) (r n : block) (with_xor : bool) :
  wf_state s →
  length r = Z.to_nat ARGON2_QWORDS_IN_BLOCK →
  length n = Z.to_nat ARGON2_QWORDS_IN_BLOCK →
  let x := xor_vectors s (vectors_of_block r) in
  let pre_permutation :=
    if with_xor then xor_vectors x (vectors_of_block n) else x in
  let out := xor_vectors (permutation_network x) pre_permutation in
  fill_block s r n with_xor = (out, block_of_vectors out).
Proof. exact (fill_block_eq s r n with_xor). Qed.

Lemma fill_block_amended_witness :
  wf_state fresh_vectors ∧
  length zero_words = Z.to_nat ARGON2_QWORDS_IN_BLOCK ∧
  length unit_words = Z.to_nat ARGON2_QWORDS_IN_BLOCK ∧
  let x := xor_vectors fresh_vectors (vectors_of_block zero_words) in
  let pre_permutation := xor_vectors x (vectors_of_block unit_words) in
  let out := xor_vectors (permutation_network x) pre_permutation in
  fill_block fresh_vectors zero_words unit_words true = (out, block_of_vectors out).
Proof.
  split; [reflexivity|]. split; [reflexivity|]. split; [reflexivity|].
  apply (fill_block_amended fresh_vectors zero_words unit_words true);
    reflexivity.
Defined.

(** C1 as stated fails when [with_xor] is set: from the zero state, the zero
    reference block and a next block whose first word is 1, the code leaves
    the next block as it is, while permuting the state XORed with the next
    block would not. *)
Lemma fill_block_claimed_differs :
  (fill_block fresh_vectors zero_words unit_words true).2 !! 0%nat = Some 1 ∧
  fill_block fresh_vectors zero_words unit_words true ≠
  fill_block_claimed fresh_vectors zero_words unit_words true.
Proof.
  split; [vm_compute; reflexivity|].
  intros Heq. apply (f_equal (λ p, p.2 !! 0%nat)) in Heq.
  vm_compute in Heq. discriminate Heq.
Qed.

End FillBlockFacts.

(** ** The segment filler *)

Module SegmentFacts.
Import Vsx Blamka OptVsx FillBlockFacts.

Section FillSegment.

Variable index_alpha : argon2_instance_t → argon2_position_t → Z → bool → Z.
Variable ARGON2_VERSION_10 : Z.
Variable type_code : argon2_type → Z.
Variable stack_address_block stack_input_block : block.

Local Abbreviation body := (fill_segment_body index_alpha ARGON2_VERSION_10).
Local Abbreviation loop := (fill_segment_loop index_alpha ARGON2_VERSION_10).
Local Abbreviation init :=
  (fill_segment_init type_code stack_address_block stack_input_block).
Local Abbreviation by_version := (fill_by_version ARGON2_VERSION_10).
Local Abbreviation ref_offset := (iter_ref_offset index_alpha).
Local Abbreviation n_words := (Z.to_nat ARGON2_QWORDS_IN_BLOCK).
Local Abbreviation addresses_inv := (OptVsx.addresses_inv type_code).

Lemma fill_segment_loop_0 inst pos (s : seg_state) : loop inst pos s 0 = s.
Proof. reflexivity. Qed.

Lemma fill_segment_loop_S inst pos (s : seg_state) (n : nat) :
  loop inst pos s (Z.of_nat (S n)) =
    body inst pos (loop inst pos s (Z.of_nat n)) (starting_index pos + Z.of_nat n).
Proof. unfold fill_segment_loop. by rewrite seqZ_S, foldl_app. Qed.

(** Loop invariants of [fill_segment]: [P i s] relates the index about to
    be processed and the locals. *)
Lemma fill_segment_loop_inv (P : Z → seg_state → Prop) inst pos
    (s0 : seg_state) (bound : Z) :
  P (starting_index pos) s0 →
  (∀ i s, starting_index pos <= i < bound → P i s → P (i + 1) (body inst pos s i)) →
  ∀ k, 0 <= k → starting_index pos + k <= bound →
       P (starting_index pos + k) (loop inst pos s0 k).
Proof.
  intros Hinit Hstep k Hk. rewrite <- (Z2Nat.id k Hk).
  induction (Z.to_nat k) as [|n IH]; intros Hbound.
  - by rewrite Z.add_0_r.
  - rewrite fill_segment_loop_S.
    replace (starting_index pos + Z.of_nat (S n))
      with (starting_index pos + Z.of_nat n + 1) by lia.
    apply Hstep; [lia|apply IH; lia].
Qed.

Lemma body_fields inst pos (s : seg_state) (i : Z) :
  let dia := data_independent_addressing inst pos in
  let prev := rotate_prev_offset inst s in
  let pr := get_pseudo_rand dia s prev i in
  let filled :=
    by_version inst pos (state s)
      (memory s !!! Z.to_nat (ref_offset inst pos s i))
      (memory s !!! Z.to_nat (curr_offset s)) in
  body inst pos s i =
    SegState ((curr_offset s + 1) mod 2 ^ 32) ((prev + 1) mod 2 ^ 32)
             filled.1 pr.1.1 pr.1.2
             (<[Z.to_nat (curr_offset s) := filled.2]> (memory s)).
Proof.
  intros dia prev pr filled. unfold fill_segment_body.
  subst filled. unfold iter_ref_offset. fold dia prev pr.
  destruct pr as [[ab ib] p]. cbn [fst snd].
  destruct (by_version _ _ _ _ _) as [st cb]. reflexivity.
Qed.

Lemma fill_by_version_flag inst pos (st : list vsx_block_t) (r c : block) :
  by_version inst pos st r c =
    fill_block st r c (accumulate_spec ARGON2_VERSION_10 inst pos).
Proof.
  unfold fill_by_version, accumulate_spec.
  rewrite (Z.eqb_sym (version inst)), (Z.eqb_sym (pass pos)).
  destruct (ARGON2_VERSION_10 =? version inst), (0 =? pass pos); reflexivity.
Qed.

Lemma accumulate_spec_false inst pos :
  accumulate_spec ARGON2_VERSION_10 inst pos = false ↔
  version inst = ARGON2_VERSION_10 ∨ pass pos = 0.
Proof.
  unfold accumulate_spec.
  destruct (Z.eqb_spec (version inst) ARGON2_VERSION_10),
           (Z.eqb_spec (pass pos) 0); cbn; intuition congruence.
Qed.

(** C5.  The flag handed to [fill_block] is clear for the older format
    revision and on pass 0, and set for a newer revision on pass >= 1; the
    block written at the current offset is then the output of the
    permutation XORed with the prior contents, and otherwise the output
    alone. *)
Theorem accumulate_rule inst pos (s : seg_state) (i : Z) :
  wf_state (state s) →
  Forall (λ b : block, length b = n_words) (memory s) →
  (Z.to_nat (curr_offset s) < length (memory s))%nat →
  (Z.to_nat (ref_offset inst pos s i) < length (memory s))%nat →
  0 <= pass pos →
  let accumulate := accumulate_spec ARGON2_VERSION_10 inst pos in
  let ref_block := memory s !!! Z.to_nat (ref_offset inst pos s i) in
  let prior := memory s !!! Z.to_nat (curr_offset s) in
  let output := block_of_vectors (compress (state s) ref_block) in
  (accumulate = false ↔ version inst = ARGON2_VERSION_10 ∨ pass pos = 0) ∧
  (accumulate = true ↔ version inst ≠ ARGON2_VERSION_10 ∧ 1 <= pass pos) ∧
  by_version inst pos (state s) ref_block prior =
    fill_block (state s) ref_block prior accumulate ∧
  memory (body inst pos s i) !! Z.to_nat (curr_offset s) =
    Some (if accumulate then zip_with Z.lxor output prior else output).
Proof.
  intros Hst Hmem Hcurr Href Hpass accumulate ref_block prior output.
  assert (Hlen : ∀ j, (j < length (memory s))%nat →
                      length (memory s !!! j) = n_words).
  { intros j Hj. apply (Forall_lookup_1 _ _ j _ Hmem).
    by apply list_lookup_lookup_total_lt. }
  pose proof (accumulate_spec_false inst pos) as Hfalse. fold accumulate in Hfalse.
  split; [exact Hfalse|]. split.
  { destruct accumulate; [|intuition (congruence || lia)].
    split; [intros _|done].
    split; [intros Hv|]; [|destruct (Z.eq_dec (pass pos) 0); [|lia]];
      assert (true = false) by (apply Hfalse; auto); discriminate. }
  split; [apply fill_by_version_flag|].
  rewrite body_fields. cbv zeta. cbn [memory].
  rewrite list_lookup_insert_eq by done. f_equal.
  rewrite fill_by_version_flag. fold accumulate ref_block prior.
  destruct accumulate.
  - rewrite fill_block_accumulate; [done|done|apply Hlen..]; done.
  - rewrite fill_block_plain; [done|done|apply Hlen..]; done.
Qed.


(** *** Offsets *)

Lemma valid_bounds inst pos :
  valid_instance inst pos →
  0 < lane_length inst ∧
  0 <= slice pos * segment_length inst + starting_index pos < lane_length inst ∧
  lane pos * lane_length inst + lane_length inst < 2 ^ 32 ∧
  0 <= lane pos * lane_length inst ∧
  slice pos * segment_length inst + segment_length inst <= lane_length inst ∧
  0 <= starting_index pos <= 2.
Proof.
  unfold valid_instance, ARGON2_SYNC_POINTS, starting_index.
  intros (Hsl & Hll & Hslice & Hlane & Hmem).
  destruct (Z.eqb_spec 0 (pass pos)), (Z.eqb_spec 0 (slice pos)); cbn [andb];
    split_and!; try nia.
Qed.

Lemma lane_pred_at inst pos (p : Z) :
  0 < lane_length inst → 0 <= p <= lane_length inst →
  lane_pred inst pos (lane pos * lane_length inst + p) =
    if p =? 0 then lane pos * lane_length inst + lane_length inst - 1
    else lane pos * lane_length inst + p - 1.
Proof.
  intros Hll Hp. unfold lane_pred.
  replace (lane pos * lane_length inst + p - lane pos * lane_length inst - 1)
    with (p - 1) by lia.
  destruct (Z.eqb_spec p 0) as [->|Hne].
  - replace (0 - 1) with (-1) by lia.
    assert (Hwrap : (-1) mod lane_length inst = lane_length inst - 1)
      by (symmetry; apply Z.mod_unique with (-1); lia).
    rewrite Hwrap. lia.
  - rewrite Z.mod_small by lia. lia.
Qed.

Lemma lane_offset_mod inst pos (p : Z) :
  0 <= p < lane_length inst →
  (lane pos * lane_length inst + p) mod lane_length inst = p.
Proof.
  intros Hp. rewrite Z.add_comm, Z.mod_add by lia. apply Z.mod_small. lia.
Qed.

Lemma first_curr_offset_valid inst pos :
  valid_instance inst pos →
  first_curr_offset inst pos =
    lane pos * lane_length inst +
    (slice pos * segment_length inst + starting_index pos).
Proof.
  intros Hv. destruct (valid_bounds inst pos Hv) as (? & ? & ? & ? & ? & ?).
  unfold first_curr_offset. rewrite Z.mod_small; lia.
Qed.

Lemma first_prev_offset_valid inst pos :
  valid_instance inst pos →
  first_prev_offset inst pos = lane_pred inst pos (first_curr_offset inst pos).
Proof.
  intros Hv. destruct (valid_bounds inst pos Hv) as (? & ? & ? & ? & ? & ?).
  unfold first_prev_offset. rewrite first_curr_offset_valid by done.
  rewrite lane_offset_mod, lane_pred_at by lia.
  rewrite (Z.eqb_sym 0).
  destruct (Z.eqb_spec (slice pos * segment_length inst + starting_index pos) 0);
    rewrite Z.mod_small; lia.
Qed.

Lemma rotate_prev_offset_inv inst pos (i : Z) (s : seg_state) :
  valid_instance inst pos →
  starting_index pos <= i < segment_length inst →
  offsets_inv inst pos i s →
  rotate_prev_offset inst s = lane_pred inst pos (curr_offset s).
Proof.
  intros Hv Hi [Hcurr Hprev].
  destruct (valid_bounds inst pos Hv) as (? & ? & ? & ? & ? & ?).
  unfold rotate_prev_offset. rewrite Hcurr in *.
  rewrite lane_offset_mod, lane_pred_at by lia.
  destruct (Z.eqb_spec (slice pos * segment_length inst + i) 1) as [->|Hne1].
  - rewrite Z.mod_small by lia. cbn. lia.
  - destruct (Z.eqb_spec (slice pos * segment_length inst + i) 0); lia.
Qed.

Lemma offsets_inv_init inst pos (mem : list block) :
  valid_instance inst pos →
  offsets_inv inst pos (starting_index pos) (init inst pos mem).
Proof.
  intros Hv. destruct (valid_bounds inst pos Hv) as (? & ? & ? & ? & ? & ?).
  unfold offsets_inv, fill_segment_init.
  destruct (if (0 =? pass pos) && (0 =? slice pos) then _ else _) as [ab ib].
  cbn [curr_offset prev_offset].
  rewrite first_prev_offset_valid, first_curr_offset_valid by done.
  split; [lia|]. rewrite lane_pred_at by lia.
  destruct (Z.eqb_spec (slice pos * segment_length inst + starting_index pos) 0);
    lia.
Qed.

Lemma offsets_inv_step inst pos (i : Z) (s : seg_state) :
  valid_instance inst pos →
  starting_index pos <= i < segment_length inst →
  offsets_inv inst pos i s →
  offsets_inv inst pos (i + 1) (body inst pos s i).
Proof.
  intros Hv Hi Hinv.
  pose proof (rotate_prev_offset_inv inst pos i s Hv Hi Hinv) as Hrot.
  destruct Hinv as [Hcurr Hprev].
  destruct (valid_bounds inst pos Hv) as (? & ? & ? & ? & ? & ?).
  rewrite body_fields. cbv zeta. unfold offsets_inv. cbn [curr_offset prev_offset].
  rewrite Hrot, Hcurr. rewrite lane_pred_at by lia.
  rewrite (Z.mod_small (_ + 1)) by lia.
  split; [lia|].
  destruct (Z.eqb_spec (slice pos * segment_length inst + i) 0) as [Hz|Hnz].
  - right. left. lia.
  - right. right. rewrite Z.mod_small by lia. lia.
Qed.

Lemma offsets_inv_loop inst pos (mem : list block) (k : Z) :
  valid_instance inst pos →
  0 <= k → starting_index pos + k <= segment_length inst →
  offsets_inv inst pos (starting_index pos + k)
    (loop inst pos (init inst pos mem) k).
Proof.
  intros Hv Hk Hbound.
  apply (fill_segment_loop_inv (offsets_inv inst pos) inst pos _
           (segment_length inst)); [by apply offsets_inv_init| |done|done].
  intros i s Hi Hinv. by apply offsets_inv_step.
Qed.


(** *** The address stream *)

Lemma length_compress (st : list vsx_block_t) (r : block) :
  wf_state st → length (compress st r) = n_vectors.
Proof.
  unfold wf_state, compress. intros Hst. cbv zeta.
  assert (Hx : length (xor_vectors st (vectors_of_block r)) = n_vectors)
    by (rewrite length_xor_vectors; rewrite ?length_vectors_of_block; done).
  rewrite length_xor_vectors; rewrite length_permutation_network; lia.
Qed.

Lemma length_address_of_input (b : block) : length (address_of_input b) = n_words.
Proof.
  unfold address_of_input.
  rewrite length_block_of_vectors, length_compress; [reflexivity|].
  apply length_fresh_vectors.
Qed.

Lemma next_addresses_eq (a b : block) :
  length a = n_words → length b = n_words →
  next_addresses a b =
    (address_of_input (<[6%nat := (b !!! 6%nat + 1) mod 2 ^ 64]> b),
     <[6%nat := (b !!! 6%nat + 1) mod 2 ^ 64]> b).
Proof.
  intros Ha Hb. unfold next_addresses, address_of_input.
  assert (Hfresh : wf_state fresh_vectors) by apply length_fresh_vectors.
  rewrite (fill_block_plain fresh_vectors _ a)
    by (rewrite ?length_insert; assumption).
  cbn [snd].
  rewrite fill_block_plain;
    [reflexivity|assumption| |];
    rewrite length_block_of_vectors, length_compress by assumption; reflexivity.
Qed.

Lemma length_init_input_block inst pos :
  length (init_input_block type_code inst pos) = n_words.
Proof.
  unfold init_input_block, init_block_value.
  by rewrite !length_insert, length_replicate.
Qed.

Lemma init_input_block_counter_lt inst pos :
  (6 < length (init_input_block type_code inst pos))%nat.
Proof. rewrite length_init_input_block. change (6 < 128)%nat. lia. Qed.

Lemma init_input_block_counter inst pos :
  init_input_block type_code inst pos !! 6%nat = Some 0.
Proof. reflexivity. Qed.

Lemma get_pseudo_rand_addresses inst pos (i prev : Z) (s : seg_state) :
  0 <= i < 2 ^ 32 →
  addresses_inv inst pos i s →
  get_pseudo_rand true s prev i =
    (address_of_input (<[6%nat := i / 128 + 1]> (init_input_block type_code inst pos)),
     <[6%nat := i / 128 + 1]> (init_input_block type_code inst pos),
     address_of_input (<[6%nat := i / 128 + 1]> (init_input_block type_code inst pos))
       !!! Z.to_nat (i mod 128)).
Proof.
  intros Hi (Hin & Hlen & Haddr).
  unfold get_pseudo_rand, ARGON2_ADDRESSES_IN_BLOCK.
  destruct (Z.eqb_spec (i mod 128) 0) as [Hz|Hnz].
  - rewrite next_addresses_eq
      by (rewrite ?Hin, ?length_insert; auto using length_init_input_block).
    rewrite Hin, list_lookup_total_insert_eq
      by apply init_input_block_counter_lt.
    rewrite list_insert_insert_eq.
    replace (((i + 127) / 128 + 1) mod 2 ^ 64) with (i / 128 + 1); [done|].
    rewrite Z.mod_small; Z.div_mod_to_equations; lia.
  - rewrite Haddr by (Z.div_mod_to_equations; lia). rewrite Hin.
    replace ((i + 127) / 128) with (i / 128 + 1)
      by (Z.div_mod_to_equations; lia).
    done.
Qed.

Lemma addresses_inv_init inst pos (mem : list block) :
  data_independent_addressing inst pos = true →
  length stack_address_block = n_words →
  addresses_inv inst pos (starting_index pos) (init inst pos mem).
Proof.
  intros Hdia Hstack. unfold addresses_inv, fill_segment_init, starting_index.
  rewrite Hdia.
  destruct ((0 =? pass pos) && (0 =? slice pos)).
  - rewrite next_addresses_eq by auto using length_init_input_block.
    cbn [input_block address_block].
    rewrite (list_lookup_total_correct _ _ _ (init_input_block_counter inst pos)).
    split_and!; [done|apply length_address_of_input|done].
  - cbn [input_block address_block]. split_and!; [|done|lia].
    symmetry. apply list_insert_id, init_input_block_counter.
Qed.

Lemma addresses_inv_step inst pos (i : Z) (s : seg_state) :
  data_independent_addressing inst pos = true →
  0 <= i < 2 ^ 32 →
  addresses_inv inst pos i s →
  addresses_inv inst pos (i + 1) (body inst pos s i).
Proof.
  intros Hdia Hi Hinv. rewrite body_fields. cbv zeta.
  rewrite Hdia, (get_pseudo_rand_addresses inst pos) by done.
  unfold addresses_inv. cbn [input_block address_block fst snd].
  replace ((i + 1 + 127) / 128) with (i / 128 + 1)
    by (Z.div_mod_to_equations; lia).
  split_and!; [done|apply length_address_of_input|done].
Qed.

(** C7.  Under data-independent addressing the value for index [i] is word
    [i mod 128] of the address block; the block is regenerated in the
    iterations with [i mod 128 = 0] and in no other (the first segment
    enters the loop with one generation done), each generation adds one to
    the counter word of the input block, and the address block, its first
    word included, is computed from the input block that carries the
    incremented counter. *)
Theorem address_stream inst pos (mem : list block) (k : Z) :
  data_independent_addressing inst pos = true →
  length stack_address_block = n_words →
  segment_length inst <= 2 ^ 32 →
  0 <= k → starting_index pos + k < segment_length inst →
  let i := starting_index pos + k in
  let s0 := init inst pos mem in
  let s := loop inst pos s0 k in
  let drawn :=
    get_pseudo_rand (data_independent_addressing inst pos) s
      (rotate_prev_offset inst s) i in
  let address_block' := drawn.1.1 in
  let input_block' := drawn.1.2 in
  let pseudo_rand := drawn.2 in
  (address_block s0, input_block s0) =
    (if (0 =? pass pos) && (0 =? slice pos)
     then next_addresses stack_address_block (init_input_block type_code inst pos)
     else (stack_address_block, init_input_block type_code inst pos)) ∧
  pseudo_rand = address_block' !!! Z.to_nat (i mod ARGON2_ADDRESSES_IN_BLOCK) ∧
  (i mod ARGON2_ADDRESSES_IN_BLOCK = 0 →
     (address_block', input_block') =
       next_addresses (address_block s) (input_block s) ∧
     input_block' !!! 6%nat = input_block s !!! 6%nat + 1) ∧
  (i mod ARGON2_ADDRESSES_IN_BLOCK ≠ 0 →
     address_block' = address_block s ∧ input_block' = input_block s) ∧
  input_block' =
    <[6%nat := i / ARGON2_ADDRESSES_IN_BLOCK + 1]>
      (init_input_block type_code inst pos) ∧
  address_block' = address_of_input input_block'.
Proof.
  intros Hdia Hstack Hseg Hk Hbound i s0 s. rewrite Hdia.
  intros drawn address_block' input_block' pseudo_rand.
  assert (Hpre : (address_block s0, input_block s0) =
            (if (0 =? pass pos) && (0 =? slice pos)
             then next_addresses stack_address_block
                    (init_input_block type_code inst pos)
             else (stack_address_block, init_input_block type_code inst pos))).
  { unfold s0, fill_segment_init. rewrite Hdia.
    destruct ((0 =? pass pos) && (0 =? slice pos)); [|reflexivity].
    destruct (next_addresses _ _) as [a b]. reflexivity. }
  split; [exact Hpre|]. clear Hpre.
  assert (Hi : 0 <= i < 2 ^ 32).
  { unfold i, starting_index in *.
    destruct ((0 =? pass pos) && (0 =? slice pos)); lia. }
  assert (Hinv : addresses_inv inst pos i s).
  { apply (fill_segment_loop_inv (addresses_inv inst pos) inst pos _
             (segment_length inst)); [by apply addresses_inv_init| |done|lia].
    intros j s' Hj Hs'. apply addresses_inv_step; [done| |done].
    unfold starting_index in *.
    destruct ((0 =? pass pos) && (0 =? slice pos)); lia. }
  pose proof (get_pseudo_rand_addresses inst pos i (rotate_prev_offset inst s) s Hi Hinv)
    as Hdraw.
  fold drawn in Hdraw.
  assert (Hraw : drawn = get_pseudo_rand true s (rotate_prev_offset inst s) i)
    by reflexivity.
  unfold get_pseudo_rand in Hraw.
  subst address_block' input_block' pseudo_rand.
  unfold ARGON2_ADDRESSES_IN_BLOCK in *.
  destruct Hinv as (Hin & Hlen & Haddr).
  split_and!.
  - rewrite Hdraw. cbn [fst snd]. reflexivity.
  - intros Hz. rewrite Hz in Hraw. cbn [Z.eqb] in Hraw.
    destruct (next_addresses (address_block s) (input_block s)) as [a b] eqn:Hnext.
    rewrite Hraw at 1 2. cbn [fst snd]. split; [reflexivity|].
    rewrite Hdraw. cbn [fst snd].
    rewrite Hin, !list_lookup_total_insert_eq
      by apply init_input_block_counter_lt.
    Z.div_mod_to_equations; lia.
  - intros Hnz. apply Z.eqb_neq in Hnz. rewrite Hnz in Hraw.
    rewrite Hraw. cbn [fst snd]. split; reflexivity.
  - rewrite Hdraw. cbn [fst snd]. reflexivity.
  - rewrite Hdraw. cbn [fst snd]. reflexivity.
Qed.


(** *** The initial state *)

Lemma length_le_bytes (n : nat) (w : Z) : length (le_bytes n w) = n.
Proof. revert w. induction n as [|n IH]; intros w; cbn; [done|by rewrite IH]. Qed.

Lemma of_v16qu_bytes (w0 w1 : Z) :
  u64 w0 → u64 w1 → of_v16qu (le_bytes 8 w0 ++ le_bytes 8 w1) = (w0, w1).
Proof.
  intros [? ?] [? ?]. unfold of_v16qu.
  rewrite take_app_length', drop_app_length' by (by rewrite length_le_bytes).
  rewrite (take_ge (le_bytes 8 w1)) by (by rewrite length_le_bytes).
  rewrite !BlamkaFacts.le_word_le_bytes.
  change (256 ^ Z.of_nat 8) with (2 ^ 64). by rewrite !Z.mod_small.
Qed.

Lemma block_of_vectors_of_bytes (n : nat) (b : block) :
  length b = (n * 2)%nat → Forall u64 b →
  block_of_vectors (vectors_of_bytes n (block_bytes b)) = b.
Proof.
  revert b. induction n as [|n IH]; intros b Hlen Hb.
  - by destruct b.
  - destruct b as [|w0 [|w1 b]]; try done.
    apply Forall_cons_1 in Hb as [Hw0 Hb]. apply Forall_cons_1 in Hb as [Hw1 Hb].
    cbn [vectors_of_bytes]. unfold block_bytes. cbn [map concat].
    rewrite app_assoc.
    rewrite take_app_length', drop_app_length'
      by (by rewrite length_app, !length_le_bytes).
    rewrite of_v16qu_bytes by done.
    change (block_of_vectors ((w0, w1) :: ?l)) with (w0 :: w1 :: block_of_vectors l).
    do 2 f_equal. apply IH; [|done]. cbn in Hlen. lia.
Qed.

Lemma length_vectors_of_bytes (n : nat) (bs : list Z) :
  length (vectors_of_bytes n bs) = n.
Proof. revert bs. induction n as [|n IH]; intros bs; cbn; [done|by rewrite IH]. Qed.

Lemma vectors_of_block_of_vectors (st : list vsx_block_t) :
  wf_state st → vectors_of_block (block_of_vectors st) = st.
Proof.
  unfold wf_state. intros Hst.
  apply list_eq_same_length with n_vectors;
    [done|apply length_vectors_of_block|].
  intros k x y Hk Hx Hy.
  destruct (lookup_block_of_vectors st k y Hy) as [Hlo Hhi].
  unfold vectors_of_block in Hx.
  rewrite list_lookup_fmap, lookup_seq_lt in Hx by done.
  injection Hx as <-. unfold VSX_LOADU.
  rewrite (list_lookup_total_correct _ _ _ Hlo),
          (list_lookup_total_correct _ _ _ Hhi).
  by destruct y.
Qed.

Lemma length_block_bytes (b : block) :
  length (block_bytes b) = (length b * 8)%nat.
Proof.
  unfold block_bytes. induction b as [|w b IH]; [done|].
  cbn [map concat length]. rewrite length_app, length_le_bytes, IH. lia.
Qed.

Lemma block_bytes_of_vectors (st : list vsx_block_t) :
  block_bytes (block_of_vectors st) = concat (to_v16qu <$> st).
Proof.
  induction st as [|v st IH]; [done|].
  change (block_of_vectors (v :: st)) with (v.1 :: v.2 :: block_of_vectors st).
  change (block_bytes (v.1 :: v.2 :: block_of_vectors st))
    with (le_bytes 8 v.1 ++ le_bytes 8 v.2 ++ block_bytes (block_of_vectors st)).
  rewrite IH, fmap_cons. cbn [concat]. unfold to_v16qu. by rewrite <- app_assoc.
Qed.

(** [memcpy] from a block into the state keeps the 1024 bytes; the vectors
    are the pairs of words that [VSX_LOADU] would read. *)
Lemma memcpy_state_eq (b : block) :
  wf_block b →
  memcpy_state b = vectors_of_block b ∧
  concat (to_v16qu <$> memcpy_state b) = block_bytes b ∧
  length (block_bytes b) = Z.to_nat ARGON2_BLOCK_SIZE.
Proof.
  intros [Hlen Hb].
  assert (Hbytes : length (block_bytes b) = Z.to_nat ARGON2_BLOCK_SIZE)
    by (rewrite length_block_bytes, Hlen; reflexivity).
  assert (Hwords : block_of_vectors (memcpy_state b) = b).
  { unfold memcpy_state. rewrite take_ge by lia.
    apply block_of_vectors_of_bytes; [rewrite Hlen; reflexivity|done]. }
  split_and!; [|by rewrite <- block_bytes_of_vectors, Hwords|done].
  rewrite <- Hwords at 2. symmetry. apply vectors_of_block_of_vectors.
  apply length_vectors_of_bytes.
Qed.

Lemma init_fields inst pos (mem : list block) :
  curr_offset (init inst pos mem) = first_curr_offset inst pos ∧
  prev_offset (init inst pos mem) = first_prev_offset inst pos ∧
  state (init inst pos mem) =
    memcpy_state (mem !!! Z.to_nat (first_prev_offset inst pos)) ∧
  memory (init inst pos mem) = mem.
Proof.
  unfold fill_segment_init.
  destruct (if (0 =? pass pos) && (0 =? slice pos) then _ else _) as [ab ib].
  cbn [curr_offset prev_offset state memory]. done.
Qed.

(** C10.  Before the first block of the segment is filled, the state is a
    byte-for-byte copy of the 1024 bytes of the block at the circular
    predecessor, within the lane, of the first offset to fill; the first
    block of the segment is filled from that state. *)
Theorem initial_state_is_previous_block inst pos (mem : list block) :
  valid_instance inst pos →
  wf_block (mem !!! Z.to_nat (lane_pred inst pos (first_curr_offset inst pos))) →
  let prev := lane_pred inst pos (first_curr_offset inst pos) in
  let s0 := init inst pos mem in
  prev_offset s0 = prev ∧
  memory s0 = mem ∧
  state s0 = vectors_of_block (mem !!! Z.to_nat prev) ∧
  concat (to_v16qu <$> state s0) = block_bytes (mem !!! Z.to_nat prev) ∧
  length (block_bytes (mem !!! Z.to_nat prev)) = Z.to_nat ARGON2_BLOCK_SIZE ∧
  (starting_index pos < segment_length inst →
     state (loop inst pos s0 1) =
       (by_version inst pos (vectors_of_block (mem !!! Z.to_nat prev))
          (mem !!! Z.to_nat (ref_offset inst pos s0 (starting_index pos)))
          (mem !!! Z.to_nat (first_curr_offset inst pos))).1).
Proof.
  intros Hv Hwf prev s0.
  destruct (init_fields inst pos mem) as (Hcurr & Hprev & Hstate & Hmem).
  fold s0 in Hcurr, Hprev, Hstate, Hmem.
  rewrite first_prev_offset_valid in Hprev, Hstate by done.
  fold prev in Hprev, Hstate.
  destruct (memcpy_state_eq _ Hwf) as (Hcopy & Hbytes & Hlen).
  fold prev in Hcopy, Hbytes, Hlen.
  split_and!; [done|done|by rewrite Hstate| |done|].
  - rewrite Hstate. exact Hbytes.
  - intros _. change 1 with (Z.of_nat 1). rewrite fill_segment_loop_S.
    rewrite fill_segment_loop_0, Z.add_0_r, body_fields. cbv zeta.
    cbn [state]. rewrite Hmem, Hcurr, Hstate, Hcopy. reflexivity.
Qed.

(** C8, as amended.  Before the loop [prev_offset] is the circular
    predecessor, within the lane, of the first offset to fill.  In the loop
    it is recomputed, to [curr_offset - 1], when [curr_offset] is on the
    second position of the lane (position 1), and nowhere else; after that
    step it is the circular predecessor of [curr_offset] in every iteration,
    and the data-dependent value is read from the block there. *)
Theorem prev_offset_is_lane_pred inst pos (mem : list block) :
  valid_instance inst pos →
  first_prev_offset inst pos = lane_pred inst pos (first_curr_offset inst pos) ∧
  ∀ k, 0 <= k → starting_index pos + k < segment_length inst →
    let s := loop inst pos (init inst pos mem) k in
    curr_offset s = first_curr_offset inst pos + k ∧
    rotate_prev_offset inst s = lane_pred inst pos (curr_offset s) ∧
    (rotate_prev_offset inst s ≠ prev_offset s →
       curr_offset s mod lane_length inst = 1 ∧
       rotate_prev_offset inst s = curr_offset s - 1) ∧
    (get_pseudo_rand false s (rotate_prev_offset inst s)
       (starting_index pos + k)).2 =
      (memory s !!! Z.to_nat (lane_pred inst pos (curr_offset s))) !!! 0%nat.
Proof.
  intros Hv. split; [by apply first_prev_offset_valid|].
  intros k Hk Hbound s.
  assert (Hinv : offsets_inv inst pos (starting_index pos + k) s)
    by (apply offsets_inv_loop; [done|done|lia]).
  assert (Hrot : rotate_prev_offset inst s = lane_pred inst pos (curr_offset s)).
  { apply (rotate_prev_offset_inv inst pos (starting_index pos + k));
      [done| |done].
    destruct (valid_bounds inst pos Hv) as (? & ? & ? & ? & ? & ?). lia. }
  destruct (valid_bounds inst pos Hv) as (? & ? & ? & ? & ? & ?).
  split_and!.
  - destruct Hinv as [-> _]. rewrite first_curr_offset_valid by done. lia.
  - exact Hrot.
  - unfold rotate_prev_offset.
    destruct (Z.eqb_spec (curr_offset s mod lane_length inst) 1) as [Hone|Hne];
      [|done].
    intros _. split; [done|].
    destruct Hinv as [Hcurr _]. rewrite Hcurr in Hone |- *.
    rewrite lane_offset_mod in Hone by lia. apply Z.mod_small. lia.
  - unfold get_pseudo_rand. cbn [snd]. by rewrite Hrot.
Qed.

(** C6.  The reference lane is [(pseudo_rand >> 32) mod lanes], and it is
    the current lane in every iteration of a segment of pass 0 and slice 0:
    the reference block is then taken in the current lane. *)
Theorem ref_lane_rule inst pos (s : seg_state) (i : Z) :
  let dia := data_independent_addressing inst pos in
  let pseudo_rand := (get_pseudo_rand dia s (rotate_prev_offset inst s) i).2 in
  let ref_lane := get_ref_lane inst pos pseudo_rand in
  ref_lane = (if (pass pos =? 0) && (slice pos =? 0) then lane pos
              else (pseudo_rand ≫ 32) mod lanes inst) ∧
  (pass pos = 0 → slice pos = 0 →
     ref_lane = lane pos ∧
     ref_offset inst pos s i =
       (lane_length inst * lane pos +
        index_alpha inst (Position (pass pos) (lane pos) (slice pos) i)
          (Z.land pseudo_rand 0xFFFFFFFF) true) mod 2 ^ 64) ∧
  (¬ (pass pos = 0 ∧ slice pos = 0) →
     ref_lane = (pseudo_rand ≫ 32) mod lanes inst).
Proof using Type.
  intros dia pseudo_rand ref_lane. split_and!.
  - reflexivity.
  - intros Hpass Hslice.
    assert (Hlane : ref_lane = lane pos).
    { unfold ref_lane, get_ref_lane. by rewrite Hpass, Hslice. }
    split; [exact Hlane|].
    unfold iter_ref_offset, get_ref_offset. fold dia pseudo_rand ref_lane.
    by rewrite Hlane, Z.eqb_refl.
  - intros Hnot. unfold ref_lane, get_ref_lane.
    destruct (Z.eqb_spec (pass pos) 0) as [Hp|Hp],
             (Z.eqb_spec (slice pos) 0) as [Hs|Hs];
      cbn [andb]; try reflexivity.
    exfalso. apply Hnot. split; assumption.
Qed.

(** C9.  With a null instance [fill_segment] returns at once and leaves
    the memory matrix as it is. *)
Theorem fill_segment_null pos (mem : list block) :
  fill_segment index_alpha ARGON2_VERSION_10 type_code
    stack_address_block stack_input_block None pos mem = mem.
Proof. reflexivity. Qed.

End FillSegment.

(** *** The theorems on sample data *)

Lemma accumulate_rule_witness :
  let inst := sample_instance Argon2_d in
  let pos := sample_position 1 0 in
  let s := SegState 0 7 fresh_vectors zero_words zero_words sample_memory in
  let ref_block :=
    memory s !!! Z.to_nat (iter_ref_offset sample_index_alpha inst pos s 0) in
  let prior := memory s !!! Z.to_nat (curr_offset s) in
  wf_state (state s) ∧
  Forall (λ b : block, length b = Z.to_nat ARGON2_QWORDS_IN_BLOCK) (memory s) ∧
  (Z.to_nat (curr_offset s) < length (memory s))%nat ∧
  (Z.to_nat (iter_ref_offset sample_index_alpha inst pos s 0) <
     length (memory s))%nat ∧
  0 <= pass pos ∧
  fill_by_version 16 inst pos (state s) ref_block prior =
    fill_block (state s) ref_block prior (accumulate_spec 16 inst pos).
Proof.
  intros inst pos s ref_block prior.
  assert (H1 : wf_state (state s)) by reflexivity.
  assert (H2 : Forall (λ b : block, length b = Z.to_nat ARGON2_QWORDS_IN_BLOCK)
                 (memory s)) by (apply Forall_replicate; reflexivity).
  assert (H3 : (Z.to_nat (curr_offset s) < length (memory s))%nat)
    by (vm_compute; lia).
  assert (H4 : (Z.to_nat (iter_ref_offset sample_index_alpha inst pos s 0) <
                  length (memory s))%nat) by (vm_compute; lia).
  assert (H5 : 0 <= pass pos) by (unfold pos, sample_position; simpl; lia).
  split_and!; try assumption.
  exact (proj1 (proj2 (proj2
           (accumulate_rule sample_index_alpha 16 inst pos s 0 H1 H2 H3 H4 H5)))).
Defined.

Lemma address_stream_witness :
  let inst := sample_instance Argon2_i in
  let pos := sample_position 0 1 in
  let s :=
    fill_segment_loop sample_index_alpha 16 inst pos
      (fill_segment_init sample_type_code zero_words zero_words inst pos
         sample_memory) 0 in
  let drawn :=
    get_pseudo_rand (data_independent_addressing inst pos) s
      (rotate_prev_offset inst s) 0 in
  data_independent_addressing inst pos = true ∧
  length zero_words = Z.to_nat ARGON2_QWORDS_IN_BLOCK ∧
  segment_length inst <= 2 ^ 32 ∧
  0 <= 0 ∧
  starting_index pos + 0 < segment_length inst ∧
  drawn.1.1 = address_of_input drawn.1.2.
Proof.
  intros inst pos s drawn.
  assert (H1 : data_independent_addressing inst pos = true) by reflexivity.
  assert (H2 : length zero_words = Z.to_nat ARGON2_QWORDS_IN_BLOCK)
    by reflexivity.
  assert (H3 : segment_length inst <= 2 ^ 32) by (vm_compute; discriminate).
  assert (H4 : 0 <= 0) by (vm_compute; discriminate).
  assert (H5 : starting_index pos + 0 < segment_length inst)
    by (vm_compute; reflexivity).
  split_and!; try assumption.
  destruct (address_stream sample_index_alpha 16 sample_type_code
              zero_words zero_words inst pos sample_memory 0
              H1 H2 H3 H4 H5) as (_ & _ & _ & _ & _ & Haddr).
  exact Haddr.
Defined.

Lemma sample_valid (t : argon2_type) (p sl : Z) :
  0 <= sl < 4 → valid_instance (sample_instance t) (sample_position p sl).
Proof. unfold valid_instance, ARGON2_SYNC_POINTS. simpl. lia. Qed.

Lemma initial_state_is_previous_block_witness :
  let inst := sample_instance Argon2_d in
  let pos := sample_position 1 0 in
  valid_instance inst pos ∧
  wf_block (sample_memory
              !!! Z.to_nat (lane_pred inst pos (first_curr_offset inst pos))) ∧
  state (fill_segment_init sample_type_code zero_words zero_words inst pos
           sample_memory) =
    vectors_of_block
      (sample_memory
         !!! Z.to_nat (lane_pred inst pos (first_curr_offset inst pos))).
Proof.
  intros inst pos.
  assert (H1 : valid_instance inst pos)
    by (apply sample_valid; lia).
  assert (H2 : wf_block (sample_memory
              !!! Z.to_nat (lane_pred inst pos (first_curr_offset inst pos)))).
  { change (wf_block zero_words). split; [reflexivity|].
    apply Forall_replicate. unfold u64. lia. }
  split_and!; try assumption.
  exact (proj1 (proj2 (proj2
           (initial_state_is_previous_block sample_index_alpha 16
              sample_type_code zero_words zero_words inst pos sample_memory
              H1 H2)))).
Defined.

Lemma prev_offset_is_lane_pred_witness :
  let inst := sample_instance Argon2_d in
  let pos := sample_position 1 0 in
  valid_instance inst pos ∧
  first_prev_offset inst pos = lane_pred inst pos (first_curr_offset inst pos).
Proof.
  intros inst pos.
  assert (H1 : valid_instance inst pos)
    by (apply sample_valid; lia).
  split; [assumption|].
  exact (proj1 (prev_offset_is_lane_pred sample_index_alpha 16
                  sample_type_code zero_words zero_words inst pos
                  sample_memory H1)).
Defined.

Lemma ref_lane_rule_witness :
  let inst := sample_instance Argon2_d in
  let pos := sample_position 0 0 in
  let s := SegState 2 1 fresh_vectors zero_words zero_words sample_memory in
  pass pos = 0 ∧ slice pos = 0 ∧
  get_ref_lane inst pos
    (get_pseudo_rand (data_independent_addressing inst pos) s
       (rotate_prev_offset inst s) 2).2 = lane pos.
Proof.
  intros inst pos s.
  assert (H1 : pass pos = 0) by reflexivity.
  assert (H2 : slice pos = 0) by reflexivity.
  split; [exact H1|]. split; [exact H2|].
  exact (proj1 (proj1 (proj2 (ref_lane_rule sample_index_alpha inst pos s 2))
                  H1 H2)).
Defined.

(** C8 as stated fails in the second iteration of the first segment of a
    later pass: [curr_offset] is 1, the code resets [prev_offset] to 0,
    while a recomputation tied to the first position of the lane would keep
    the value 8, which is outside the lane. *)
Lemma prev_offset_claimed_differs :
  let inst := sample_instance Argon2_d in
  let pos := sample_position 1 0 in
  let s :=
    fill_segment_loop sample_index_alpha 16 inst pos
      (fill_segment_init sample_type_code zero_words zero_words inst pos
         sample_memory) 1 in
  curr_offset s = 1 ∧
  rotate_prev_offset inst s = 0 ∧
  rotate_prev_offset_claimed inst s = 8 ∧
  rotate_prev_offset_claimed inst s ≠ rotate_prev_offset inst s ∧
  rotate_prev_offset_claimed inst s ≠ lane_pred inst pos (curr_offset s).
Proof. vm_compute. split_and!; (reflexivity || discriminate). Qed.

(** On the sample configuration the first words of the address blocks of
    two successive generations differ. *)
Example address_first_word_sample :
  let base :=
    init_input_block sample_type_code (sample_instance Argon2_i)
      (sample_position 0 1) in
  address_of_input (<[6%nat := 1]> base) !! 0%nat ≠
  address_of_input (<[6%nat := 2]> base) !! 0%nat.
Proof. vm_compute. intros Heq. discriminate Heq. Qed.

(** The whole segment filler runs on the sample configuration and keeps
    the matrix at eight blocks. *)
Example fill_segment_sample :
  length (fill_segment sample_index_alpha 16 sample_type_code
            zero_words zero_words (Some (sample_instance Argon2_id))
            (sample_position 0 1) sample_memory) = 8%nat.
Proof. vm_compute. reflexivity. Qed.

End SegmentFacts.

(** * Further properties *)

(** ** The round and the rotations *)

Module RoundFacts.
Import Vsx Blamka BlamkaFacts.

Lemma u64_high_bits (w k : Z) : u64 w → 64 <= k → Z.testbit w k = false.
Proof.
  intros [Hw0 Hw1] Hk. destruct (Z.eq_dec w 0) as [->|]; [apply Z.bits_0|].
  apply Z.bits_above_log2; [lia|].
  apply Z.lt_le_trans with 64; [apply Z.log2_lt_pow2; lia|lia].
Qed.

Lemma rotr64_parts_disjoint (w c : Z) :
  u64 w → 0 < c < 64 →
  Z.land (Z.shiftr w c) (Z.shiftl w (64 - c) mod 2 ^ 64) = 0.
Proof.
  intros Hw Hc. apply Z.bits_inj'. intros n Hn.
  rewrite Z.land_spec, Z.bits_0, Z.shiftr_spec, Z.testbit_mod_pow2 by lia.
  rewrite Z.shiftl_spec by lia.
  destruct (Z.lt_ge_cases n (64 - c)).
  - rewrite (Z.testbit_neg_r w (n - (64 - c))) by lia.
    by rewrite !andb_false_r.
  - by rewrite (u64_high_bits w (n + c)) by (done || lia).
Qed.

Lemma u64_rotr64 (w c : Z) : u64 w → 0 < c < 64 → u64 (rotr64 w c).
Proof.
  intros Hw Hc. rewrite rotr64_arith by done. destruct Hw as [Hw0 Hw1].
  assert (Hsplit : 2 ^ 64 = 2 ^ c * 2 ^ (64 - c)).
  { rewrite <- Z.pow_add_r by lia. f_equal. lia. }
  assert (0 < 2 ^ c) by (apply Z.pow_pos_nonneg; lia).
  assert (0 < 2 ^ (64 - c)) by (apply Z.pow_pos_nonneg; lia).
  assert (Hq : 0 <= w / 2 ^ c < 2 ^ (64 - c)).
  { split; [apply Z.div_pos; lia|]. apply Z.div_lt_upper_bound; lia. }
  pose proof (Z.mod_pos_bound w (2 ^ c)). unfold u64. nia.
Qed.

(** The fall-back branch of [VSX_ROTI_EPI64]. *)
Lemma roti_shift (x : v2du) (d : Z) :
  wf_v2du x → 0 < d < 64 → d ≠ 32 → d ≠ 24 → d ≠ 16 → d ≠ 63 →
  VSX_ROTI_EPI64 x (- d) = (rotr64 x.1 d, rotr64 x.2 d).
Proof.
  destruct x as [x1 x2]. intros [H1 H2] Hd H32 H24 H16 H63. cbn [fst snd] in *.
  unfold VSX_ROTI_EPI64. rewrite !Z.opp_involutive.
  destruct (Z.eqb_spec d 32); [done|]. destruct (Z.eqb_spec d 24); [done|].
  destruct (Z.eqb_spec d 16); [done|]. destruct (Z.eqb_spec d 63); [done|].
  unfold vec_xor, vec_sr, vec_sl, rotr64. cbn [fst snd].
  rewrite !(Z.mod_small d), !(Z.mod_small (64 - d)) by lia.
  by rewrite !Z.lxor_lor by (by apply rotr64_parts_disjoint).
Qed.

Lemma roti_any (x : v2du) (d : Z) :
  wf_v2du x → 0 < d < 64 →
  VSX_ROTI_EPI64 x (- d) = (rotr64 x.1 d, rotr64 x.2 d).
Proof.
  intros Hx Hd.
  destruct (Z.eq_dec d 32) as [->|]; [apply (roti_perm x 32); auto|].
  destruct (Z.eq_dec d 24) as [->|]; [apply (roti_perm x 24); auto|].
  destruct (Z.eq_dec d 16) as [->|]; [apply (roti_perm x 16); auto|].
  destruct (Z.eq_dec d 63) as [->|]; [by apply roti_63|].
  by apply roti_shift.
Qed.

(** X3.  For every distance d from 1 to 63, whichever branch of the macro
    is taken, [VSX_ROTI_EPI64(x, -d)] rotates both 64-bit elements right by
    d: bit i of the result is bit (i + d) mod 64 of the argument, and the
    result is again a 64-bit value. *)
Theorem VSX_ROTI_EPI64_rotates (x : v2du) (d : Z) :
  wf_v2du x → 0 < d < 64 →
  wf_v2du (VSX_ROTI_EPI64 x (- d)) ∧
  ∀ i, 0 <= i < 64 →
    Z.testbit (VSX_ROTI_EPI64 x (- d)).1 i = Z.testbit x.1 ((i + d) mod 64) ∧
    Z.testbit (VSX_ROTI_EPI64 x (- d)).2 i = Z.testbit x.2 ((i + d) mod 64).
Proof.
  intros Hx Hd. rewrite roti_any by done. destruct Hx as [H1 H2]. split.
  - split; by apply u64_rotr64.
  - intros i Hi. cbn [fst snd]. split; by apply rotr64_testbit.
Qed.

Lemma VSX_ROTI_EPI64_rotates_witness :
  wf_v2du (1, 2 ^ 63) ∧ 0 < 7 < 64 ∧
  Z.testbit (VSX_ROTI_EPI64 (1, 2 ^ 63) (- 7)).1 57 = true.
Proof.
  assert (H1 : wf_v2du (1, 2 ^ 63)) by (unfold wf_v2du, u64; simpl; lia).
  assert (H2 : 0 < 7 < 64) by lia.
  split; [exact H1|]. split; [exact H2|].
  transitivity (Z.testbit (1, 2 ^ 63).1 ((57 + 7) mod 64)); [|reflexivity].
  exact (proj1 (proj2 (VSX_ROTI_EPI64_rotates (1, 2 ^ 63) 7 H1 H2) 57
                  ltac:(lia))).
Defined.


(** *** The round *)

Lemma u64_G_spec (r1 r2 : Z) (a b c d : Z) :
  0 < r1 < 64 → 0 < r2 < 64 → u64 a → u64 b → u64 c → u64 d →
  let q := G_spec r1 r2 (a, b, c, d) in
  u64 q.1.1.1 ∧ u64 q.1.1.2 ∧ u64 q.1.2 ∧ u64 q.2.
Proof.
  intros Hr1 Hr2 Ha Hb Hc Hd. cbn.
  split_and!; auto using u64_f_spec, u64_rotr64, u64_lxor.
Qed.

Lemma wf_G_lanes (r1 r2 : Z) (r : regs) :
  0 < r1 < 64 → 0 < r2 < 64 → wf_regs r → wf_regs (G_lanes r1 r2 r).
Proof.
  intros Hr1 Hr2.
  destruct r as [[a00 a01] [b00 b01] [c00 c01] [d00 d01]
                 [a10 a11] [b10 b11] [c10 c11] [d10 d11]].
  unfold wf_regs, wf_v2du. cbn [A0 B0 C0 D0 A1 B1 C1 D1 fst snd].
  intros ([? ?] & [? ?] & [? ?] & [? ?] & [? ?] & [? ?] & [? ?] & [? ?]).
  unfold G_lanes, quad0, quad1. cbn [A0 B0 C0 D0 A1 B1 C1 D1 fst snd].
  pose proof (u64_G_spec r1 r2 a00 b00 c00 d00) as Hq00.
  pose proof (u64_G_spec r1 r2 a01 b01 c01 d01) as Hq01.
  pose proof (u64_G_spec r1 r2 a10 b10 c10 d10) as Hq10.
  pose proof (u64_G_spec r1 r2 a11 b11 c11 d11) as Hq11.
  cbv zeta in *. tauto.
Qed.

Lemma wf_G1_VSX (r : regs) : wf_regs r → wf_regs (G1_VSX r).
Proof. intros Hr. rewrite G1_VSX_lanes by done. apply wf_G_lanes; [lia|lia|done]. Qed.

Lemma wf_G2_VSX (r : regs) : wf_regs r → wf_regs (G2_VSX r).
Proof. intros Hr. rewrite G2_VSX_lanes by done. apply wf_G_lanes; [lia|lia|done]. Qed.

Lemma wf_UNDIAGONALIZE_VSX (r : regs) : wf_regs r → wf_regs (UNDIAGONALIZE_VSX r).
Proof.
  intros Hr. rewrite UNDIAGONALIZE_VSX_lanes by done.
  unfold wf_regs, wf_v2du in *. cbn [A0 B0 C0 D0 A1 B1 C1 D1 fst snd]. tauto.
Qed.

Lemma wf_BLAKE2_ROUND_VSX (a0 a1 b0 b1 c0 c1 d0 d1 : v2du) :
  wf_regs (Regs a0 b0 c0 d0 a1 b1 c1 d1) →
  wf_regs (BLAKE2_ROUND_VSX a0 a1 b0 b1 c0 c1 d0 d1).
Proof.
  intros Hr. unfold BLAKE2_ROUND_VSX. cbv zeta.
  apply wf_UNDIAGONALIZE_VSX, wf_G2_VSX, wf_G1_VSX, wf_DIAGONALIZE_VSX,
        wf_G2_VSX, wf_G1_VSX, Hr.
Qed.

Lemma quads_of_quads_map (g : Z * Z * Z * Z → Z * Z * Z * Z) (r : regs) :
  quad0 false (quads_map g r) = g (quad0 false r) ∧
  quad0 true (quads_map g r) = g (quad0 true r) ∧
  quad1 false (quads_map g r) = g (quad1 false r) ∧
  quad1 true (quads_map g r) = g (quad1 true r).
Proof.
  unfold quads_map, regs_of_quads.
  destruct (g (quad0 false r)) as [[[? ?] ?] ?], (g (quad0 true r)) as [[[? ?] ?] ?],
    (g (quad1 false r)) as [[[? ?] ?] ?], (g (quad1 true r)) as [[[? ?] ?] ?].
  done.
Qed.

Lemma G2_G1_VSX_quads (r : regs) :
  wf_regs r → G2_VSX (G1_VSX r) = quads_map G_full r.
Proof.
  intros Hr. rewrite G2_VSX_lanes by by apply wf_G1_VSX.
  rewrite G1_VSX_lanes by done.
  change (G_lanes 16 63 (G_lanes 32 24 r))
    with (quads_map (G_spec 16 63) (quads_map (G_spec 32 24) r)).
  destruct (quads_of_quads_map (G_spec 32 24) r) as (H00 & H01 & H10 & H11).
  unfold quads_map at 1. by rewrite H00, H01, H10, H11.
Qed.

Lemma BLAKE2_ROUND_VSX_quads (a0 a1 b0 b1 c0 c1 d0 d1 : v2du) :
  wf_regs (Regs a0 b0 c0 d0 a1 b1 c1 d1) →
  BLAKE2_ROUND_VSX a0 a1 b0 b1 c0 c1 d0 d1 =
    undiag_lanes (quads_map G_full (diag_lanes (quads_map G_full
      (Regs a0 b0 c0 d0 a1 b1 c1 d1)))).
Proof.
  intros Hr. unfold BLAKE2_ROUND_VSX. cbv zeta.
  assert (H1 : wf_regs (G2_VSX (G1_VSX (Regs a0 b0 c0 d0 a1 b1 c1 d1))))
    by auto using wf_G1_VSX, wf_G2_VSX.
  assert (H2 : wf_regs (DIAGONALIZE_VSX
                 (G2_VSX (G1_VSX (Regs a0 b0 c0 d0 a1 b1 c1 d1)))))
    by auto using wf_DIAGONALIZE_VSX.
  rewrite UNDIAGONALIZE_VSX_lanes by auto using wf_G1_VSX, wf_G2_VSX.
  rewrite (G2_G1_VSX_quads (DIAGONALIZE_VSX _)) by done.
  rewrite DIAGONALIZE_VSX_lanes by done.
  rewrite G2_G1_VSX_quads by done. reflexivity.
Qed.

Ltac eval_G_at g a b c d :=
  match goal with
  | |- context [G_at g a b c d ?l] =>
      let E := fresh "E" in
      let l' := fresh "l" in
      remember (G_at g a b c d l) as l' eqn:E;
      unfold G_at in E;
      cbn [lookup_total list_lookup_total insert list_insert] in E
  end.

(** The lane structure of the round is that of the scalar round, for any
    quarter-round [g]. *)
Lemma round_lanes_words (g : Z * Z * Z * Z → Z * Z * Z * Z) (r : regs) :
  words_of_regs (Regs
     (A0 (undiag_lanes (quads_map g (diag_lanes (quads_map g r)))))
     (B0 (undiag_lanes (quads_map g (diag_lanes (quads_map g r)))))
     (C0 (undiag_lanes (quads_map g (diag_lanes (quads_map g r)))))
     (D0 (undiag_lanes (quads_map g (diag_lanes (quads_map g r)))))
     (A1 (undiag_lanes (quads_map g (diag_lanes (quads_map g r)))))
     (B1 (undiag_lanes (quads_map g (diag_lanes (quads_map g r)))))
     (C1 (undiag_lanes (quads_map g (diag_lanes (quads_map g r)))))
     (D1 (undiag_lanes (quads_map g (diag_lanes (quads_map g r)))))) =
  round_words g (words_of_regs r).
Proof.
  destruct r as [[v0 v1] [v4 v5] [v8 v9] [v12 v13]
                 [v2 v3] [v6 v7] [v10 v11] [v14 v15]].
  unfold words_of_regs at 2. cbn [A0 B0 C0 D0 A1 B1 C1 D1 fst snd].
  unfold round_words. cbv zeta.
  unfold quads_map at 2 4 6 8 10 12 14 16. unfold quad0, quad1.
  cbn [A0 B0 C0 D0 A1 B1 C1 D1 fst snd].
  eval_G_at g 0%nat 4%nat 8%nat 12%nat.
  destruct (g (v0, v4, v8, v12)) as [[[w0 w4] w8] w12].
  cbn [fst snd] in *. subst.
  eval_G_at g 1%nat 5%nat 9%nat 13%nat.
  destruct (g (v1, v5, v9, v13)) as [[[w1 w5] w9] w13].
  cbn [fst snd] in *. subst.
  eval_G_at g 2%nat 6%nat 10%nat 14%nat.
  destruct (g (v2, v6, v10, v14)) as [[[w2 w6] w10] w14].
  cbn [fst snd] in *. subst.
  eval_G_at g 3%nat 7%nat 11%nat 15%nat.
  destruct (g (v3, v7, v11, v15)) as [[[w3 w7] w11] w15].
  cbn [fst snd] in *. subst.
  unfold regs_of_quads, diag_lanes, quads_map, quad0, quad1.
  cbn [A0 B0 C0 D0 A1 B1 C1 D1 fst snd].
  eval_G_at g 0%nat 5%nat 10%nat 15%nat.
  destruct (g (w0, w5, w10, w15)) as [[[x0 x5] x10] x15].
  cbn [fst snd] in *. subst.
  eval_G_at g 1%nat 6%nat 11%nat 12%nat.
  destruct (g (w1, w6, w11, w12)) as [[[x1 x6] x11] x12].
  cbn [fst snd] in *. subst.
  eval_G_at g 2%nat 7%nat 8%nat 13%nat.
  destruct (g (w2, w7, w8, w13)) as [[[x2 x7] x8] x13].
  cbn [fst snd] in *. subst.
  eval_G_at g 3%nat 4%nat 9%nat 14%nat.
  destruct (g (w3, w4, w9, w14)) as [[[x3 x4] x9] x14].
  cbn [fst snd] in *. subst.
  reflexivity.
Qed.

(** X1.  On the sixteen words of its eight vectors, [BLAKE2_ROUND_VSX] is
    the scalar round: the full quarter-round (G1 then G2) on the four
    columns (0,4,8,12), (1,5,9,13), (2,6,10,14), (3,7,11,15) and then on the
    four diagonals (0,5,10,15), (1,6,11,12), (2,7,8,13), (3,4,9,14); every
    word of the result is a 64-bit value. *)
Theorem BLAKE2_ROUND_VSX_is_scalar_round (a0 a1 b0 b1 c0 c1 d0 d1 : v2du) :
  wf_regs (Regs a0 b0 c0 d0 a1 b1 c1 d1) →
  words_of_regs (BLAKE2_ROUND_VSX a0 a1 b0 b1 c0 c1 d0 d1) =
    round_words G_full (words_of_regs (Regs a0 b0 c0 d0 a1 b1 c1 d1)) ∧
  wf_regs (BLAKE2_ROUND_VSX a0 a1 b0 b1 c0 c1 d0 d1).
Proof.
  intros Hr. split; [|by apply wf_BLAKE2_ROUND_VSX].
  rewrite BLAKE2_ROUND_VSX_quads by done.
  rewrite <- round_lanes_words.
  by destruct (undiag_lanes _).
Qed.


Lemma BLAKE2_ROUND_VSX_is_scalar_round_witness :
  wf_regs regs_sample ∧
  words_of_regs (BLAKE2_ROUND_VSX (A0 regs_sample) (A1 regs_sample)
                   (B0 regs_sample) (B1 regs_sample) (C0 regs_sample)
                   (C1 regs_sample) (D0 regs_sample) (D1 regs_sample)) =
    round_words G_full (words_of_regs regs_sample).
Proof.
  assert (Hwf : wf_regs regs_sample)
    by (unfold wf_regs, wf_v2du, u64; simpl; lia).
  split; [exact Hwf|].
  exact (proj1 (BLAKE2_ROUND_VSX_is_scalar_round _ _ _ _ _ _ _ _ Hwf)).
Defined.

(** X2.  Diagonalization after undiagonalization is the identity as well,
    and after diagonalization the four quadruples held by the vectors are
    the four diagonals of the 4x4 word matrix. *)
Theorem DIAGONALIZE_UNDIAGONALIZE (r : regs) :
  wf_regs r →
  DIAGONALIZE_VSX (UNDIAGONALIZE_VSX r) = r ∧
  quad0 false (DIAGONALIZE_VSX r) = ((A0 r).1, (B0 r).2, (C1 r).1, (D1 r).2) ∧
  quad0 true (DIAGONALIZE_VSX r) = ((A0 r).2, (B1 r).1, (C1 r).2, (D0 r).1) ∧
  quad1 false (DIAGONALIZE_VSX r) = ((A1 r).1, (B1 r).2, (C0 r).1, (D0 r).2) ∧
  quad1 true (DIAGONALIZE_VSX r) = ((A1 r).2, (B0 r).1, (C0 r).2, (D1 r).1).
Proof.
  intros Hr. split.
  - rewrite DIAGONALIZE_VSX_lanes by by apply wf_UNDIAGONALIZE_VSX.
    rewrite UNDIAGONALIZE_VSX_lanes by done.
    destruct r as [[] [] [] [] [] [] [] []]. reflexivity.
  - rewrite DIAGONALIZE_VSX_lanes by done.
    destruct r as [[] [] [] [] [] [] [] []]. done.
Qed.

Lemma DIAGONALIZE_UNDIAGONALIZE_witness :
  wf_regs regs_sample ∧
  DIAGONALIZE_VSX (UNDIAGONALIZE_VSX regs_sample) = regs_sample.
Proof.
  assert (Hwf : wf_regs regs_sample)
    by (unfold wf_regs, wf_v2du, u64; simpl; lia).
  split; [exact Hwf|exact (proj1 (DIAGONALIZE_UNDIAGONALIZE regs_sample Hwf))].
Defined.

End RoundFacts.

(** ** The mixing core: ranges and the old next block *)

Module FillBlockExtra.
Import Vsx Blamka OptVsx BlamkaFacts FillBlockFacts RoundFacts.

Lemma u64_lookup_total (b : block) (k : nat) : Forall u64 b → u64 (b !!! k).
Proof.
  intros Hb. rewrite list_lookup_total_alt.
  destruct (b !! k) as [w|] eqn:Hk; cbn.
  - by apply (Forall_lookup_1 _ _ _ _ Hb Hk).
  - unfold u64. cbn. lia.
Qed.

Lemma wf_lookup_total (s : list vsx_block_t) (k : nat) :
  Forall wf_v2du s → wf_v2du (s !!! k).
Proof.
  intros Hs. rewrite list_lookup_total_alt.
  destruct (s !! k) as [v|] eqn:Hk; cbn.
  - by apply (Forall_lookup_1 _ _ _ _ Hs Hk).
  - unfold wf_v2du, u64. cbn. lia.
Qed.

Lemma Forall_wf_vectors_of_block (b : block) :
  Forall u64 b → Forall wf_v2du (vectors_of_block b).
Proof.
  intros Hb. unfold vectors_of_block. apply Forall_fmap, Forall_forall.
  intros k _. split; by apply u64_lookup_total.
Qed.

Lemma Forall_wf_xor_vectors (a b : list vsx_block_t) :
  Forall wf_v2du a → Forall wf_v2du b → Forall wf_v2du (xor_vectors a b).
Proof.
  unfold xor_vectors. intros Ha. revert b.
  induction Ha as [|x a Hx Ha IH]; intros [|y b] Hb; cbn; try constructor.
  - apply wf_vec_xor; [done|]. by apply Forall_cons_1 in Hb as [? ?].
  - apply IH. by apply Forall_cons_1 in Hb as [? ?].
Qed.

Lemma Forall_wf_round_at (idx : nat → nat) (s : list vsx_block_t) :
  Forall wf_v2du s → Forall wf_v2du (round_at idx s).
Proof.
  intros Hs. unfold round_at.
  assert (Hr : wf_regs (BLAKE2_ROUND_VSX
             (s !!! idx 0%nat) (s !!! idx 1%nat) (s !!! idx 2%nat)
             (s !!! idx 3%nat) (s !!! idx 4%nat) (s !!! idx 5%nat)
             (s !!! idx 6%nat) (s !!! idx 7%nat))).
  { apply wf_BLAKE2_ROUND_VSX. unfold wf_regs.
    cbn [A0 B0 C0 D0 A1 B1 C1 D1]. split_and!; by apply wf_lookup_total. }
  destruct Hr as (? & ? & ? & ? & ? & ? & ? & ?).
  repeat apply Forall_insert; assumption.
Qed.

Lemma Forall_wf_permutation_network (s : list vsx_block_t) :
  Forall wf_v2du s → Forall wf_v2du (permutation_network s).
Proof.
  assert (Hfold : ∀ (f : nat → nat → nat) (l : list nat) (st : list vsx_block_t),
            Forall wf_v2du st →
            Forall wf_v2du (foldl (λ st i, round_at (f i) st) st l)).
  { intros f l. induction l as [|i l IH]; intros st Hst; [done|].
    cbn [foldl]. apply IH. by apply Forall_wf_round_at. }
  intros Hs. unfold permutation_network, column_rounds, row_rounds.
  apply (Hfold (λ i k, (8 * k + i)%nat)), (Hfold (λ i k, (8 * i + k)%nat)), Hs.
Qed.

Lemma Forall_u64_block_of_vectors (s : list vsx_block_t) :
  Forall wf_v2du s → Forall u64 (block_of_vectors s).
Proof.
  induction 1 as [|v s [Hv1 Hv2] _ IH]; [constructor|].
  change (block_of_vectors (v :: s)) with (v.1 :: v.2 :: block_of_vectors s).
  constructor; [exact Hv1|]. constructor; [exact Hv2|]. exact IH.
Qed.

Lemma fst_pair {A B : Type} (a : A) (b : B) : (a, b).1 = a.
Proof. reflexivity. Qed.

Lemma snd_pair {A B : Type} (a : A) (b : B) : (a, b).2 = b.
Proof. reflexivity. Qed.

Lemma fill_block_shape (s : list vsx_block_t) (r n : block) (with_xor : bool) :
  wf_state s →
  length r = Z.to_nat ARGON2_QWORDS_IN_BLOCK →
  length n = Z.to_nat ARGON2_QWORDS_IN_BLOCK →
  ∃ out, fill_block s r n with_xor = (out, block_of_vectors out).
Proof. intros Hs Hr Hn. eexists. by apply fill_block_eq. Qed.

(** [fill_block] keeps every word a 64-bit value. *)
Lemma fill_block_wf (s : list vsx_block_t) (r n : block) (with_xor : bool) :
  wf_state s → Forall wf_v2du s → wf_block r → wf_block n →
  wf_state (fill_block s r n with_xor).1 ∧
  Forall wf_v2du (fill_block s r n with_xor).1 ∧
  wf_block (fill_block s r n with_xor).2.
Proof.
  intros Hs Hwf [Hr Hru] [Hn Hnu].
  pose proof (fill_block_eq s r n with_xor Hs Hr Hn) as Heq. cbv zeta in Heq.
  rewrite Heq. cbn [fst snd]. clear Heq.
  assert (Hx : Forall wf_v2du (xor_vectors s (vectors_of_block r)))
    by auto using Forall_wf_xor_vectors, Forall_wf_vectors_of_block.
  assert (Hxl : length (xor_vectors s (vectors_of_block r)) = n_vectors)
    by (rewrite length_xor_vectors; rewrite ?length_vectors_of_block; done).
  set (x := xor_vectors s (vectors_of_block r)) in *.
  set (pre := if with_xor then xor_vectors x (vectors_of_block n) else x).
  assert (Hpre : Forall wf_v2du pre ∧ length pre = n_vectors).
  { unfold pre. destruct with_xor; [|done]. split.
    - auto using Forall_wf_xor_vectors, Forall_wf_vectors_of_block.
    - rewrite length_xor_vectors; rewrite ?length_vectors_of_block; done. }
  destruct Hpre as [Hpre Hprel].
  assert (Hout : Forall wf_v2du (xor_vectors (permutation_network x) pre))
    by (apply Forall_wf_xor_vectors;
        [by apply Forall_wf_permutation_network|done]).
  assert (Houtl : length (xor_vectors (permutation_network x) pre) = n_vectors)
    by (rewrite length_xor_vectors; rewrite length_permutation_network; lia).
  split; [exact Houtl|]. split; [exact Hout|]. split.
  - rewrite length_block_of_vectors, Houtl. reflexivity.
  - by apply Forall_u64_block_of_vectors.
Qed.

(** X4.  [fill_block] keeps the shape and the range of its data: from a
    state, a reference block and a next block of 64-bit words it returns 64
    vectors and 128 words that are 64-bit values, and the new state holds
    exactly the words written to the next block. *)
Theorem fill_block_keeps_range (s : list vsx_block_t) (r n : block)
    (with_xor : bool) :
  wf_state s → Forall wf_v2du s → wf_block r → wf_block n →
  wf_state (fill_block s r n with_xor).1 ∧
  Forall wf_v2du (fill_block s r n with_xor).1 ∧
  wf_block (fill_block s r n with_xor).2 ∧
  (fill_block s r n with_xor).1 =
    vectors_of_block (fill_block s r n with_xor).2.
Proof.
  intros Hs Hwf Hr Hn.
  destruct (fill_block_wf s r n with_xor Hs Hwf Hr Hn) as (H1 & H2 & H3).
  split; [exact H1|]. split; [exact H2|]. split; [exact H3|].
  destruct Hr as [Hr _], Hn as [Hn _].
  destruct (fill_block_shape s r n with_xor Hs Hr Hn) as [out Heq].
  rewrite Heq in H1 |- *. rewrite fst_pair in H1. rewrite fst_pair, snd_pair.
  symmetry. apply SegmentFacts.vectors_of_block_of_vectors. exact H1.
Qed.

(** X5.  Without [with_xor] the result of [fill_block] does not depend on
    the old contents of the next block; with [with_xor] the block written is
    that result XORed word by word with the old contents. *)
Theorem fill_block_overwrite_ignores_next (s : list vsx_block_t) (r n n' : block) :
  wf_state s →
  length r = Z.to_nat ARGON2_QWORDS_IN_BLOCK →
  length n = Z.to_nat ARGON2_QWORDS_IN_BLOCK →
  length n' = Z.to_nat ARGON2_QWORDS_IN_BLOCK →
  fill_block s r n false = fill_block s r n' false ∧
  (fill_block s r n true).2 = zip_with Z.lxor (fill_block s r n' false).2 n.
Proof.
  intros Hs Hr Hn Hn'.
  rewrite fill_block_accumulate, !fill_block_plain by assumption.
  split; [reflexivity|]. rewrite !snd_pair. reflexivity.
Qed.


Lemma wf_block_zero_words : wf_block zero_words.
Proof. split; [reflexivity|]. apply Forall_replicate. unfold u64. lia. Qed.

Lemma wf_fresh_vectors : wf_state fresh_vectors ∧ Forall wf_v2du fresh_vectors.
Proof.
  split; [apply length_fresh_vectors|].
  apply Forall_replicate. unfold wf_v2du, u64. cbn. lia.
Qed.

Lemma fill_block_keeps_range_witness :
  wf_state fresh_vectors ∧ Forall wf_v2du fresh_vectors ∧
  wf_block zero_words ∧
  wf_block (fill_block fresh_vectors zero_words zero_words true).2.
Proof.
  destruct wf_fresh_vectors as [H1 H2]. pose proof wf_block_zero_words as H3.
  split; [exact H1|]. split; [exact H2|]. split; [exact H3|].
  exact (proj1 (proj2 (proj2
           (fill_block_keeps_range fresh_vectors zero_words zero_words true
              H1 H2 H3 H3)))).
Defined.

Lemma fill_block_overwrite_ignores_next_witness :
  wf_state fresh_vectors ∧
  length zero_words = Z.to_nat ARGON2_QWORDS_IN_BLOCK ∧
  length unit_words = Z.to_nat ARGON2_QWORDS_IN_BLOCK ∧
  fill_block fresh_vectors zero_words zero_words false =
    fill_block fresh_vectors zero_words unit_words false.
Proof.
  assert (H1 : wf_state fresh_vectors) by reflexivity.
  assert (H2 : length zero_words = Z.to_nat ARGON2_QWORDS_IN_BLOCK)
    by reflexivity.
  assert (H3 : length unit_words = Z.to_nat ARGON2_QWORDS_IN_BLOCK)
    by reflexivity.
  split; [exact H1|]. split; [exact H2|]. split; [exact H3|].
  exact (proj1 (fill_block_overwrite_ignores_next fresh_vectors zero_words
                  zero_words unit_words H1 H2 H2 H3)).
Defined.

End FillBlockExtra.

(** ** The segment filler: bounds, frame and the locals *)

Module SegmentExtra.
Import Vsx Blamka OptVsx BlamkaFacts FillBlockFacts SegmentFacts RoundFacts
       FillBlockExtra.

Local Abbreviation n_words := (Z.to_nat ARGON2_QWORDS_IN_BLOCK).

Lemma Forall_lookup_total_lt {A : Type} `{Inhabited A} (P : A → Prop)
    (l : list A) (i : nat) :
  Forall P l → (i < length l)%nat → P (l !!! i).
Proof.
  intros Hl Hi. apply (Forall_lookup_1 _ _ i _ Hl).
  by apply list_lookup_lookup_total_lt.
Qed.

(** *** [next_addresses] *)

(** X6.  [next_addresses] adds one, modulo 2^64, to word 6 of the input
    block (so the counter wraps from 2^64 - 1 to 0) and leaves its other
    words alone; both results are blocks of 64-bit words and neither depends
    on the old contents of the address block. *)
Theorem next_addresses_counter (a a2 b : block) :
  length a = n_words → length a2 = n_words → wf_block b →
  (next_addresses a b).2 !!! 6%nat = (b !!! 6%nat + 1) mod 2 ^ 64 ∧
  (b !!! 6%nat = 2 ^ 64 - 1 → (next_addresses a b).2 !!! 6%nat = 0) ∧
  (∀ j : nat, j ≠ 6%nat → (next_addresses a b).2 !! j = b !! j) ∧
  next_addresses a2 b = next_addresses a b ∧
  wf_block (next_addresses a b).1 ∧
  wf_block (next_addresses a b).2.
Proof.
  intros Ha Ha2 [Hb Hbu].
  rewrite (next_addresses_eq a b), (next_addresses_eq a2 b) by assumption.
  rewrite fst_pair, snd_pair.
  assert (H6 : (6 < length b)%nat) by (rewrite Hb; change (6 < 128)%nat; lia).
  assert (Hcnt : u64 ((b !!! 6%nat + 1) mod 2 ^ 64))
    by (apply Z.mod_pos_bound; lia).
  assert (Hb' : wf_block (<[6%nat := (b !!! 6%nat + 1) mod 2 ^ 64]> b)).
  { split; [by rewrite length_insert|by apply Forall_insert]. }
  split_and!.
  - by apply list_lookup_total_insert_eq.
  - intros Hmax. rewrite list_lookup_total_insert_eq by done.
    rewrite Hmax. reflexivity.
  - intros j Hj. by apply list_lookup_insert_ne.
  - reflexivity.
  - unfold address_of_input.
    assert (Hfresh : wf_state fresh_vectors ∧ Forall wf_v2du fresh_vectors).
    { split; [apply length_fresh_vectors|].
      apply Forall_replicate. unfold wf_v2du, u64. cbn. lia. }
    destruct Hfresh as [Hf1 Hf2].
    assert (Hcomp : ∀ r, wf_block r →
              wf_block (block_of_vectors (compress fresh_vectors r))).
    { intros r Hr.
      pose proof (fill_block_wf fresh_vectors r r false Hf1 Hf2 Hr Hr)
        as (_ & _ & Hblk).
      destruct Hr as [Hr _].
      rewrite (fill_block_plain fresh_vectors r r) in Hblk by assumption.
      by rewrite snd_pair in Hblk. }
    by apply Hcomp, Hcomp.
  - exact Hb'.
Qed.

Lemma next_addresses_counter_witness :
  length zero_words = n_words ∧ wf_block zero_words ∧
  (next_addresses zero_words zero_words).2 !!! 6%nat =
    (zero_words !!! 6%nat + 1) mod 2 ^ 64.
Proof.
  assert (H1 : length zero_words = n_words) by reflexivity.
  pose proof wf_block_zero_words as H2.
  split; [exact H1|]. split; [exact H2|].
  exact (proj1 (next_addresses_counter zero_words zero_words zero_words H1 H1 H2)).
Defined.


Section FillSegment.

Variable index_alpha : argon2_instance_t → argon2_position_t → Z → bool → Z.
Variable ARGON2_VERSION_10 : Z.
Variable type_code : argon2_type → Z.
Variable stack_address_block stack_input_block : block.

Local Abbreviation body := (fill_segment_body index_alpha ARGON2_VERSION_10).
Local Abbreviation loop := (fill_segment_loop index_alpha ARGON2_VERSION_10).
Local Abbreviation init :=
  (fill_segment_init type_code stack_address_block stack_input_block).
Local Abbreviation by_version := (fill_by_version ARGON2_VERSION_10).
Local Abbreviation ref_offset := (iter_ref_offset index_alpha).
Local Abbreviation in_lane := (index_alpha_in_lane index_alpha).
Local Abbreviation seg_inv := (segment_inv).

(** *** The reference block lies in the matrix *)

Lemma get_ref_lane_range inst pos (pr : Z) :
  0 <= lane pos < lanes inst →
  0 <= get_ref_lane inst pos pr < lanes inst.
Proof.
  intros Hlane. unfold get_ref_lane.
  destruct ((pass pos =? 0) && (slice pos =? 0)); [done|].
  apply Z.mod_pos_bound. lia.
Qed.

Lemma get_ref_offset_range inst pos (pr i : Z) :
  in_lane inst → 0 < lane_length inst → 0 <= lane pos < lanes inst →
  lanes inst * lane_length inst < 2 ^ 64 →
  get_ref_offset index_alpha inst pos pr i =
    lane_length inst * get_ref_lane inst pos pr +
    index_alpha inst (Position (pass pos) (lane pos) (slice pos) i)
      (Z.land pr 0xFFFFFFFF) (get_ref_lane inst pos pr =? lane pos) ∧
  0 <= get_ref_offset index_alpha inst pos pr i < lanes inst * lane_length inst.
Proof.
  intros Halpha Hll Hlane Hmem.
  pose proof (get_ref_lane_range inst pos pr Hlane) as Hrl.
  unfold get_ref_offset. cbv zeta.
  set (rl := get_ref_lane inst pos pr) in *.
  pose proof (Halpha (Position (pass pos) (lane pos) (slice pos) i)
                (Z.land pr 0xFFFFFFFF) (rl =? lane pos)) as Hidx.
  set (ri := index_alpha inst _ _ _) in *.
  assert (Hrange : 0 <= lane_length inst * rl + ri < lanes inst * lane_length inst)
    by nia.
  rewrite Z.mod_small by lia. done.
Qed.

(** X7.  When [index_alpha] returns an index inside a lane, the reference
    lane is a lane of the instance and the offset of the reference block,
    [lane_length * ref_lane + ref_index], lies inside the matrix, so the
    64-bit address arithmetic does not wrap. *)
Theorem ref_block_in_matrix inst pos (pr i : Z) :
  in_lane inst → 0 < lane_length inst → 0 <= lane pos < lanes inst →
  lanes inst * lane_length inst < 2 ^ 64 →
  0 <= get_ref_lane inst pos pr < lanes inst ∧
  get_ref_offset index_alpha inst pos pr i =
    lane_length inst * get_ref_lane inst pos pr +
    index_alpha inst (Position (pass pos) (lane pos) (slice pos) i)
      (Z.land pr 0xFFFFFFFF) (get_ref_lane inst pos pr =? lane pos) ∧
  0 <= get_ref_offset index_alpha inst pos pr i < lanes inst * lane_length inst.
Proof.
  intros Halpha Hll Hlane Hmem.
  split; [by apply get_ref_lane_range|by apply get_ref_offset_range].
Qed.

(** *** The matrix and the running state along the loop *)

Lemma fill_segment_loop_nonpos inst pos (s : seg_state) (k : Z) :
  k <= 0 → loop inst pos s k = s.
Proof. intros Hk. unfold fill_segment_loop. by rewrite seqZ_nil. Qed.

Lemma lane_pred_range inst pos (p : Z) :
  0 < lane_length inst → 0 <= p <= lane_length inst →
  lane pos * lane_length inst <=
    lane_pred inst pos (lane pos * lane_length inst + p)
    < lane pos * lane_length inst + lane_length inst.
Proof.
  intros Hll Hp. rewrite lane_pred_at by done.
  destruct (Z.eqb_spec p 0); lia.
Qed.

Lemma segment_inv_init inst pos (mem : list block) :
  valid_instance inst pos → wf_matrix inst mem →
  seg_inv inst pos mem (starting_index pos) (init inst pos mem).
Proof.
  intros Hv [Hlen Hmem].
  pose proof (offsets_inv_init type_code stack_address_block stack_input_block
                inst pos mem Hv) as Hoff.
  destruct (init_fields type_code stack_address_block stack_input_block
              inst pos mem) as (Hcurr & Hprev & Hstate & Hmemory).
  destruct (valid_bounds inst pos Hv) as (? & ? & ? & ? & ? & ?).
  destruct Hv as (Hsl & Hll & Hslice & Hlane & Hfit).
  unfold segment_inv. rewrite Hmemory, Hstate, Hcurr.
  split_and!; try done.
  - rewrite first_prev_offset_valid by done.
    apply memcpy_state_eq. apply Forall_lookup_total_lt; [done|].
    rewrite first_curr_offset_valid by done.
    pose proof (lane_pred_range inst pos
                  (slice pos * segment_length inst + starting_index pos)
                  ltac:(lia) ltac:(lia)).
    assert (Hin : lane pos * lane_length inst + lane_length inst
                  <= lanes inst * lane_length inst)
      by (clear - Hlane H; nia).
    lia.
Qed.

Lemma segment_inv_step inst pos (mem : list block) (i : Z) (s : seg_state) :
  valid_instance inst pos → wf_matrix inst mem → in_lane inst →
  starting_index pos <= i < segment_length inst →
  seg_inv inst pos mem i s →
  seg_inv inst pos mem (i + 1) (body inst pos s i).
Proof.
  intros Hv [Hlen Hmem] Halpha Hi (Hoff & Hlength & Hwf & Hstate & Hframe).
  pose proof (offsets_inv_step index_alpha ARGON2_VERSION_10 inst pos i s
                Hv Hi Hoff) as Hoff'.
  destruct (valid_bounds inst pos Hv) as (Hllpos & Hp0 & Hfit32 & Hlane0 & Hseg & Hstart).
  pose proof Hv as (Hsl & Hll & Hslice & Hlane & Hfit).
  destruct Hoff as [Hcurr _]. cbv zeta in Hcurr.
  set (p := slice pos * segment_length inst + i) in *.
  assert (Hp : 0 <= p < lane_length inst) by (unfold p; lia).
  assert (Hin : lane pos * lane_length inst + lane_length inst
                <= lanes inst * lane_length inst)
    by (clear - Hlane Hllpos; nia).
  assert (Hcurr_lt : (Z.to_nat (curr_offset s) < length (memory s))%nat)
    by (rewrite Hlength; lia).
  assert (Href_lt : (Z.to_nat (ref_offset inst pos s i) < length (memory s))%nat).
  { unfold iter_ref_offset.
    pose proof (get_ref_offset_range inst pos
      (get_pseudo_rand (data_independent_addressing inst pos) s
         (rotate_prev_offset inst s) i).2 i Halpha Hllpos Hlane ltac:(lia))
      as [_ Hrange].
    rewrite Hlength. lia. }
  assert (Hprev_lt : (Z.to_nat (lane_pred inst pos (curr_offset s)) <
                        length (memory s))%nat).
  { rewrite Hcurr, Hlength.
    pose proof (lane_pred_range inst pos p Hllpos ltac:(lia)). lia. }
  pose proof (Forall_lookup_total_lt _ _ _ Hwf Hcurr_lt) as Hcb.
  pose proof (Forall_lookup_total_lt _ _ _ Hwf Href_lt) as Hrb.
  pose proof (Forall_lookup_total_lt _ _ _ Hwf Hprev_lt) as Hpb.
  assert (Hst : wf_state (state s) ∧ Forall wf_v2du (state s)).
  { rewrite Hstate. split; [apply length_vectors_of_block|].
    apply Forall_wf_vectors_of_block, Hpb. }
  destruct Hst as [Hst1 Hst2].
  pose proof (fill_block_wf (state s) _ _
                (accumulate_spec ARGON2_VERSION_10 inst pos)
                Hst1 Hst2 Hrb Hcb) as (Hout1 & _ & Hout3).
  destruct (fill_block_shape (state s) _ _
              (accumulate_spec ARGON2_VERSION_10 inst pos)
              Hst1 (proj1 Hrb) (proj1 Hcb)) as [out Hfill].
  rewrite Hfill in Hout1, Hout3. rewrite fst_pair in Hout1. rewrite snd_pair in Hout3.
  destruct Hoff' as [Hcurr' Hprev']. cbv zeta in Hcurr'.
  rewrite body_fields in Hcurr', Hprev' |- *. cbv zeta in Hcurr', Hprev' |- *.
  rewrite fill_by_version_flag, Hfill in Hcurr', Hprev' |- *.
  rewrite fst_pair, snd_pair in Hcurr', Hprev' |- *.
  unfold segment_inv, offsets_inv.
  cbn [curr_offset prev_offset state memory] in Hcurr', Hprev' |- *.
  split_and!.
  - exact Hcurr'.
  - exact Hprev'.
  - by rewrite length_insert.
  - by apply Forall_insert.
  - rewrite Hcurr'.
    replace (slice pos * segment_length inst + (i + 1)) with (p + 1)
      by (unfold p; lia).
    rewrite lane_pred_at by lia.
    destruct (Z.eqb_spec (p + 1) 0); [lia|].
    replace (lane pos * lane_length inst + (p + 1) - 1) with (curr_offset s)
      by lia.
    rewrite list_lookup_total_insert_eq by done.
    symmetry. by apply vectors_of_block_of_vectors.
  - intros j Hj. rewrite list_lookup_insert_ne; [apply Hframe|].
    + destruct Hj as [Hj|Hj]; [by left|right; lia].
    + assert (first_curr_offset inst pos <= curr_offset s).
      { rewrite first_curr_offset_valid, Hcurr by done. unfold p. lia. }
      lia.
Qed.

Lemma segment_inv_loop inst pos (mem : list block) (k : Z) :
  valid_instance inst pos → wf_matrix inst mem → in_lane inst →
  0 <= k → starting_index pos + k <= segment_length inst →
  seg_inv inst pos mem (starting_index pos + k)
    (loop inst pos (init inst pos mem) k).
Proof.
  intros Hv Hm Halpha Hk Hbound.
  apply (fill_segment_loop_inv index_alpha ARGON2_VERSION_10
           (segment_inv inst pos mem) inst pos _ (segment_length inst));
    [by apply segment_inv_init| |done|done].
  intros i s Hi Hinv. by apply segment_inv_step.
Qed.


Lemma fill_segment_end inst pos (mem : list block) :
  valid_instance inst pos → wf_matrix inst mem → in_lane inst →
  let mem' :=
    fill_segment index_alpha ARGON2_VERSION_10 type_code
      stack_address_block stack_input_block (Some inst) pos mem in
  length mem' = length mem ∧
  Forall wf_block mem' ∧
  ∀ j : nat,
    Z.of_nat j < first_curr_offset inst pos ∨
    first_curr_offset inst pos +
      (segment_length inst - starting_index pos) <= Z.of_nat j →
    mem' !! j = mem !! j.
Proof.
  intros Hv Hm Halpha. cbn [fill_segment]. cbv zeta.
  destruct (Z.le_gt_cases 0 (segment_length inst - starting_index pos))
    as [Hk|Hk].
  - pose proof (segment_inv_loop inst pos mem _ Hv Hm Halpha Hk ltac:(lia))
      as (Hoff & Hlen & Hwf & _ & Hframe).
    split; [exact Hlen|]. split; [exact Hwf|].
    intros j Hj. apply Hframe.
    destruct Hj as [Hj|Hj]; [by left|right].
    destruct Hoff as [Hcurr _]. cbv zeta in Hcurr.
    rewrite Hcurr. rewrite first_curr_offset_valid in Hj by done. lia.
  - rewrite fill_segment_loop_nonpos by lia.
    destruct (init_fields type_code stack_address_block stack_input_block
                inst pos mem) as (_ & _ & _ & Hmemory).
    rewrite Hmemory. destruct Hm as [_ Hwf]. done.
Qed.

(** X8.  [fill_segment] keeps the number of blocks of the matrix and
    writes only inside its own segment: every block below the first offset
    to fill, or from the end of the segment on, is left as it was. *)
Theorem fill_segment_frame inst pos (mem : list block) :
  valid_instance inst pos → wf_matrix inst mem → in_lane inst →
  let mem' :=
    fill_segment index_alpha ARGON2_VERSION_10 type_code
      stack_address_block stack_input_block (Some inst) pos mem in
  length mem' = length mem ∧
  ∀ j : nat,
    Z.of_nat j < first_curr_offset inst pos ∨
    first_curr_offset inst pos +
      (segment_length inst - starting_index pos) <= Z.of_nat j →
    mem' !! j = mem !! j.
Proof.
  intros Hv Hm Halpha mem'.
  destruct (fill_segment_end inst pos mem Hv Hm Halpha) as (Hlen & _ & Hframe).
  split; [exact Hlen|exact Hframe].
Qed.

(** X9.  [fill_segment] keeps the matrix well formed: it still holds every
    block of every lane, and each block is 128 words of 64 bits. *)
Theorem fill_segment_keeps_matrix inst pos (mem : list block) :
  valid_instance inst pos → wf_matrix inst mem → in_lane inst →
  wf_matrix inst
    (fill_segment index_alpha ARGON2_VERSION_10 type_code
       stack_address_block stack_input_block (Some inst) pos mem).
Proof.
  intros Hv Hm Halpha.
  destruct (fill_segment_end inst pos mem Hv Hm Halpha) as (Hlen & Hwf & _).
  split; [|exact Hwf]. rewrite Hlen. by destruct Hm.
Qed.


(** X11.  In every iteration the running state equals the block at
    [prev_offset] (after its in-loop update), that is the block written by
    the iteration before, or the block copied before the loop; the
    data-dependent [pseudo_rand] is therefore the first word of the
    state. *)
Theorem state_is_previous_block inst pos (mem : list block) (k : Z) :
  valid_instance inst pos → wf_matrix inst mem → in_lane inst →
  0 <= k → starting_index pos + k < segment_length inst →
  let s := loop inst pos (init inst pos mem) k in
  let prev := rotate_prev_offset inst s in
  state s = vectors_of_block (memory s !!! Z.to_nat prev) ∧
  (get_pseudo_rand false s prev (starting_index pos + k)).2 =
    (state s !!! 0%nat).1.
Proof.
  intros Hv Hm Halpha Hk Hbound s prev.
  pose proof (segment_inv_loop inst pos mem k Hv Hm Halpha Hk ltac:(lia))
    as (Hoff & _ & _ & Hstate & _).
  fold s in Hoff, Hstate.
  assert (Hprev : prev = lane_pred inst pos (curr_offset s)).
  { apply (rotate_prev_offset_inv inst pos (starting_index pos + k));
      [done| |done].
    destruct (valid_bounds inst pos Hv) as (? & ? & ? & ? & ? & ?). lia. }
  rewrite Hprev. split; [exact Hstate|].
  unfold get_pseudo_rand. rewrite snd_pair, Hstate.
  rewrite lookup_total_vectors_of_block by (change (0 < 64)%nat; lia).
  reflexivity.
Qed.

(** *** Data-independent addressing does not look at the matrix *)

(** X12.  Under data-independent addressing the pseudo-random value and
    the offset of the reference block of every iteration are the same for
    any two contents of the matrix. *)
Theorem addresses_ignore_memory inst pos (mem mem' : list block) (k : Z) :
  data_independent_addressing inst pos = true →
  length stack_address_block = n_words →
  segment_length inst <= 2 ^ 32 →
  0 <= k → starting_index pos + k < segment_length inst →
  let i := starting_index pos + k in
  let s := loop inst pos (init inst pos mem) k in
  let s' := loop inst pos (init inst pos mem') k in
  (get_pseudo_rand (data_independent_addressing inst pos) s
     (rotate_prev_offset inst s) i).2 =
  (get_pseudo_rand (data_independent_addressing inst pos) s'
     (rotate_prev_offset inst s') i).2 ∧
  ref_offset inst pos s i = ref_offset inst pos s' i.
Proof.
  intros Hdia Hstack Hseg Hk Hbound i s s'.
  assert (Hi : 0 <= i < 2 ^ 32).
  { unfold i, starting_index in *.
    destruct ((0 =? pass pos) && (0 =? slice pos)); lia. }
  assert (Hinv : ∀ m, addresses_inv type_code inst pos i
                        (loop inst pos (init inst pos m) k)).
  { intros m.
    apply (fill_segment_loop_inv index_alpha ARGON2_VERSION_10
             (addresses_inv type_code inst pos) inst pos _ (segment_length inst));
      [by apply addresses_inv_init| |done|lia].
    intros j t Hj Ht. apply addresses_inv_step; [done| |done].
    unfold starting_index in *.
    destruct ((0 =? pass pos) && (0 =? slice pos)); lia. }
  assert (Hdraw : (get_pseudo_rand (data_independent_addressing inst pos) s
                     (rotate_prev_offset inst s) i).2 =
                  (get_pseudo_rand (data_independent_addressing inst pos) s'
                     (rotate_prev_offset inst s') i).2).
  { rewrite Hdia.
    rewrite (get_pseudo_rand_addresses index_alpha type_code inst pos i _ s Hi
               (Hinv mem)).
    rewrite (get_pseudo_rand_addresses index_alpha type_code inst pos i _ s' Hi
               (Hinv mem')).
    reflexivity. }
  split; [exact Hdraw|]. unfold iter_ref_offset. by rewrite Hdraw.
Qed.

End FillSegment.

(** *** The indeterminate locals are never read *)

Section Locals.

Variable index_alpha : argon2_instance_t → argon2_position_t → Z → bool → Z.
Variable ARGON2_VERSION_10 : Z.
Variable type_code : argon2_type → Z.

Local Abbreviation body := (fill_segment_body index_alpha ARGON2_VERSION_10).
Local Abbreviation loop := (fill_segment_loop index_alpha ARGON2_VERSION_10).

Lemma fill_segment_loop_rel (R : Z → seg_state → seg_state → Prop) inst pos
    (s0 s0' : seg_state) :
  R (starting_index pos) s0 s0' →
  (∀ i s s', starting_index pos <= i → R i s s' →
             R (i + 1) (body inst pos s i) (body inst pos s' i)) →
  ∀ k, 0 <= k →
       R (starting_index pos + k) (loop inst pos s0 k) (loop inst pos s0' k).
Proof.
  intros Hinit Hstep k Hk. rewrite <- (Z2Nat.id k Hk).
  induction (Z.to_nat k) as [|n IH].
  - by rewrite Z.add_0_r.
  - rewrite !fill_segment_loop_S.
    replace (starting_index pos + Z.of_nat (S n))
      with (starting_index pos + Z.of_nat n + 1) by lia.
    apply Hstep; [lia|apply IH].
Qed.

Lemma get_pseudo_rand_rel inst pos (i prev : Z) (s s' : seg_state) :
  locals_rel inst pos i s s' →
  (get_pseudo_rand (data_independent_addressing inst pos) s prev i).2 =
  (get_pseudo_rand (data_independent_addressing inst pos) s' prev i).2 ∧
  (data_independent_addressing inst pos = true →
     get_pseudo_rand true s prev i = get_pseudo_rand true s' prev i ∧
     length (get_pseudo_rand true s prev i).1.2 = Z.to_nat ARGON2_QWORDS_IN_BLOCK ∧
     length (get_pseudo_rand true s prev i).1.1 = Z.to_nat ARGON2_QWORDS_IN_BLOCK).
Proof.
  intros (_ & _ & _ & Hmem & Hdia).
  assert (Htrue : data_independent_addressing inst pos = true →
     get_pseudo_rand true s prev i = get_pseudo_rand true s' prev i ∧
     length (get_pseudo_rand true s prev i).1.2 = Z.to_nat ARGON2_QWORDS_IN_BLOCK ∧
     length (get_pseudo_rand true s prev i).1.1 = Z.to_nat ARGON2_QWORDS_IN_BLOCK).
  { intros Hd. destruct (Hdia Hd) as (Hin & Hlin & Hla & Hla' & Haddr).
    unfold get_pseudo_rand.
    destruct (Z.eqb_spec (i mod ARGON2_ADDRESSES_IN_BLOCK) 0) as [Hz|Hnz].
    - rewrite <- Hin.
      rewrite (next_addresses_eq (address_block s)),
              (next_addresses_eq (address_block s')) by assumption.
      rewrite !fst_pair, !snd_pair.
      split_and!; [reflexivity|by rewrite length_insert|
                   apply length_address_of_input].
    - rewrite <- Hin, <- (Haddr Hnz). rewrite !fst_pair, !snd_pair. done. }
  split; [|exact Htrue].
  destruct (data_independent_addressing inst pos).
  - by destruct (Htrue eq_refl) as [-> _].
  - unfold get_pseudo_rand. by rewrite !snd_pair, Hmem.
Qed.

Lemma locals_rel_step inst pos (i : Z) (s s' : seg_state) :
  locals_rel inst pos i s s' →
  locals_rel inst pos (i + 1) (body inst pos s i) (body inst pos s' i).
Proof.
  intros Hrel.
  pose proof Hrel as (Hcurr & Hprev & Hstate & Hmem & _).
  assert (Hrot : rotate_prev_offset inst s = rotate_prev_offset inst s')
    by (unfold rotate_prev_offset; by rewrite Hcurr, Hprev).
  destruct (get_pseudo_rand_rel inst pos i (rotate_prev_offset inst s) s s' Hrel)
    as [Hpr Htrue].
  assert (Href : iter_ref_offset index_alpha inst pos s i =
                 iter_ref_offset index_alpha inst pos s' i).
  { unfold iter_ref_offset. by rewrite <- Hrot, Hpr. }
  rewrite !body_fields. cbv zeta.
  rewrite <- Hrot, <- Href, <- Hcurr, <- Hstate, <- Hmem.
  unfold locals_rel. cbn [curr_offset prev_offset state memory
                          input_block address_block].
  split_and!; try reflexivity.
  intros Hd. destruct (Htrue Hd) as (Heq & Hlin & Hla). rewrite Hd in *.
  rewrite <- Heq. split_and!; done.
Qed.

Lemma locals_rel_init inst pos (mem : list block) (a a' b b' : block) :
  length a = Z.to_nat ARGON2_QWORDS_IN_BLOCK →
  length a' = Z.to_nat ARGON2_QWORDS_IN_BLOCK →
  locals_rel inst pos (starting_index pos)
    (fill_segment_init type_code a b inst pos mem)
    (fill_segment_init type_code a' b' inst pos mem).
Proof.
  intros Ha Ha'.
  destruct (init_fields type_code a b inst pos mem) as (Hc & Hp & Hs & Hm).
  destruct (init_fields type_code a' b' inst pos mem) as (Hc' & Hp' & Hs' & Hm').
  unfold locals_rel. rewrite Hc, Hc', Hp, Hp', Hs, Hs', Hm, Hm'.
  split_and!; try reflexivity.
  intros Hd. unfold fill_segment_init, starting_index. rewrite Hd.
  pose proof (length_init_input_block type_code inst pos) as Hbase.
  destruct ((0 =? pass pos) && (0 =? slice pos)).
  - rewrite (next_addresses_eq a), (next_addresses_eq a') by assumption.
    cbn [input_block address_block].
    split_and!; [reflexivity|by rewrite length_insert|
                 apply length_address_of_input..|done].
  - cbn [input_block address_block]. split_and!; try done.
Qed.

(** X13.  The result of [fill_segment] does not depend on the indeterminate
    contents of its locals [address_block] and [input_block] on entry: both
    are written before they are read, or never read. *)
Theorem fill_segment_ignores_locals (instance : option argon2_instance_t)
    pos (mem : list block) (a a' b b' : block) :
  length a = Z.to_nat ARGON2_QWORDS_IN_BLOCK →
  length a' = Z.to_nat ARGON2_QWORDS_IN_BLOCK →
  fill_segment index_alpha ARGON2_VERSION_10 type_code a b instance pos mem =
  fill_segment index_alpha ARGON2_VERSION_10 type_code a' b' instance pos mem.
Proof.
  intros Ha Ha'. destruct instance as [inst|]; [|reflexivity].
  cbn [fill_segment].
  destruct (Z.le_gt_cases 0 (segment_length inst - starting_index pos))
    as [Hk|Hk].
  - pose proof (fill_segment_loop_rel (locals_rel inst pos) inst pos _ _
                  (locals_rel_init inst pos mem a a' b b' Ha Ha')
                  (λ i s s' _ H, locals_rel_step inst pos i s s' H)
                  _ Hk) as (_ & _ & _ & Hmem & _).
    exact Hmem.
  - rewrite !fill_segment_loop_nonpos by lia.
    destruct (init_fields type_code a b inst pos mem) as (_ & _ & _ & ->).
    destruct (init_fields type_code a' b' inst pos mem) as (_ & _ & _ & ->).
    reflexivity.
Qed.

End Locals.

(** *** The theorems on the sample configuration *)

Lemma sample_in_lane (t : argon2_type) :
  index_alpha_in_lane sample_index_alpha (sample_instance t).
Proof. intros p pr sl. unfold sample_index_alpha, sample_instance. simpl. lia. Qed.

Lemma sample_wf_matrix (t : argon2_type) :
  wf_matrix (sample_instance t) sample_memory.
Proof.
  split; [unfold sample_instance, sample_memory; simpl; lia|].
  apply Forall_replicate, wf_block_zero_words.
Qed.

Lemma ref_block_in_matrix_witness :
  let inst := sample_instance Argon2_d in
  let pos := sample_position 1 0 in
  index_alpha_in_lane sample_index_alpha inst ∧
  0 < lane_length inst ∧ 0 <= lane pos < lanes inst ∧
  lanes inst * lane_length inst < 2 ^ 64 ∧
  0 <= get_ref_offset sample_index_alpha inst pos (2 ^ 63) 0
    < lanes inst * lane_length inst.
Proof.
  intros inst pos.
  pose proof (sample_in_lane Argon2_d) as H1.
  assert (H2 : 0 < lane_length inst) by reflexivity.
  assert (H3 : 0 <= lane pos < lanes inst) by (split; [discriminate|reflexivity]).
  assert (H4 : lanes inst * lane_length inst < 2 ^ 64) by reflexivity.
  split; [exact H1|]. split; [exact H2|]. split; [exact H3|]. split; [exact H4|].
  exact (proj2 (proj2 (ref_block_in_matrix sample_index_alpha inst pos
                         (2 ^ 63) 0 H1 H2 H3 H4))).
Defined.

Lemma fill_segment_frame_witness :
  let inst := sample_instance Argon2_d in
  let pos := sample_position 1 1 in
  valid_instance inst pos ∧ wf_matrix inst sample_memory ∧
  index_alpha_in_lane sample_index_alpha inst ∧
  length (fill_segment sample_index_alpha 16 sample_type_code
            zero_words zero_words (Some inst) pos sample_memory) =
    length sample_memory.
Proof.
  intros inst pos.
  assert (H1 : valid_instance inst pos) by (apply sample_valid; lia).
  pose proof (sample_wf_matrix Argon2_d) as H2.
  pose proof (sample_in_lane Argon2_d) as H3.
  split; [exact H1|]. split; [exact H2|]. split; [exact H3|].
  exact (proj1 (fill_segment_frame sample_index_alpha 16 sample_type_code
                  zero_words zero_words inst pos sample_memory H1 H2 H3)).
Defined.

Lemma fill_segment_keeps_matrix_witness :
  let inst := sample_instance Argon2_d in
  let pos := sample_position 1 1 in
  valid_instance inst pos ∧ wf_matrix inst sample_memory ∧
  index_alpha_in_lane sample_index_alpha inst ∧
  wf_matrix inst
    (fill_segment sample_index_alpha 16 sample_type_code
       zero_words zero_words (Some inst) pos sample_memory).
Proof.
  intros inst pos.
  assert (H1 : valid_instance inst pos) by (apply sample_valid; lia).
  pose proof (sample_wf_matrix Argon2_d) as H2.
  pose proof (sample_in_lane Argon2_d) as H3.
  split; [exact H1|]. split; [exact H2|]. split; [exact H3|].
  exact (fill_segment_keeps_matrix sample_index_alpha 16 sample_type_code
           zero_words zero_words inst pos sample_memory H1 H2 H3).
Defined.


Lemma state_is_previous_block_witness :
  let inst := sample_instance Argon2_d in
  let pos := sample_position 1 0 in
  let s :=
    fill_segment_loop sample_index_alpha 16 inst pos
      (fill_segment_init sample_type_code zero_words zero_words inst pos
         sample_memory) 1 in
  valid_instance inst pos ∧ wf_matrix inst sample_memory ∧
  index_alpha_in_lane sample_index_alpha inst ∧
  0 <= 1 ∧ starting_index pos + 1 < segment_length inst ∧
  state s =
    vectors_of_block (memory s !!! Z.to_nat (rotate_prev_offset inst s)).
Proof.
  intros inst pos s.
  assert (H1 : valid_instance inst pos) by (apply sample_valid; lia).
  pose proof (sample_wf_matrix Argon2_d) as H2.
  pose proof (sample_in_lane Argon2_d) as H3.
  assert (H4 : 0 <= 1) by discriminate.
  assert (H5 : starting_index pos + 1 < segment_length inst) by reflexivity.
  split; [exact H1|]. split; [exact H2|]. split; [exact H3|].
  split; [exact H4|]. split; [exact H5|].
  exact (proj1 (state_is_previous_block sample_index_alpha 16 sample_type_code
                  zero_words zero_words inst pos sample_memory 1
                  H1 H2 H3 H4 H5)).
Defined.

Lemma addresses_ignore_memory_witness :
  let inst := sample_instance Argon2_i in
  let pos := sample_position 0 1 in
  let s :=
    fill_segment_loop sample_index_alpha 16 inst pos
      (fill_segment_init sample_type_code zero_words zero_words inst pos
         sample_memory) 1 in
  let s' :=
    fill_segment_loop sample_index_alpha 16 inst pos
      (fill_segment_init sample_type_code zero_words zero_words inst pos
         (replicate 8 unit_words)) 1 in
  data_independent_addressing inst pos = true ∧
  length zero_words = Z.to_nat ARGON2_QWORDS_IN_BLOCK ∧
  segment_length inst <= 2 ^ 32 ∧ 0 <= 1 ∧
  starting_index pos + 1 < segment_length inst ∧
  iter_ref_offset sample_index_alpha inst pos s (starting_index pos + 1) =
    iter_ref_offset sample_index_alpha inst pos s' (starting_index pos + 1).
Proof.
  intros inst pos s s'.
  assert (H1 : data_independent_addressing inst pos = true) by reflexivity.
  assert (H2 : length zero_words = Z.to_nat ARGON2_QWORDS_IN_BLOCK)
    by reflexivity.
  assert (H3 : segment_length inst <= 2 ^ 32) by discriminate.
  assert (H4 : 0 <= 1) by discriminate.
  assert (H5 : starting_index pos + 1 < segment_length inst) by reflexivity.
  split; [exact H1|]. split; [exact H2|]. split; [exact H3|].
  split; [exact H4|]. split; [exact H5|].
  exact (proj2 (addresses_ignore_memory sample_index_alpha 16 sample_type_code
                  zero_words zero_words inst pos sample_memory
                  (replicate 8 unit_words) 1 H1 H2 H3 H4 H5)).
Defined.

Lemma fill_segment_ignores_locals_witness :
  length zero_words = Z.to_nat ARGON2_QWORDS_IN_BLOCK ∧
  length unit_words = Z.to_nat ARGON2_QWORDS_IN_BLOCK ∧
  fill_segment sample_index_alpha 16 sample_type_code zero_words zero_words
    (Some (sample_instance Argon2_id)) (sample_position 0 1) sample_memory =
  fill_segment sample_index_alpha 16 sample_type_code unit_words unit_words
    (Some (sample_instance Argon2_id)) (sample_position 0 1) sample_memory.
Proof.
  assert (H1 : length zero_words = Z.to_nat ARGON2_QWORDS_IN_BLOCK)
    by reflexivity.
  assert (H2 : length unit_words = Z.to_nat ARGON2_QWORDS_IN_BLOCK)
    by reflexivity.
  split; [exact H1|]. split; [exact H2|].
  exact (fill_segment_ignores_locals sample_index_alpha 16 sample_type_code
           (Some (sample_instance Argon2_id)) (sample_position 0 1)
           sample_memory zero_words unit_words zero_words unit_words H1 H2).
Defined.

End SegmentExtra.

(** ** The two round loops of the mixing core *)

Module RoundsIndependent.
Import Vsx Blamka OptVsx FillBlockFacts.

Lemma round_at_lookup (idx : nat → nat) (s : list vsx_block_t) :
  (∀ k, (k < 8)%nat → (idx k < length s)%nat) →
  (∀ k k', (k < 8)%nat → (k' < 8)%nat → idx k = idx k' → k = k') →
  (∀ k, (k < 8)%nat →
     round_at idx s !!! idx k = round_out k (round_regs idx s)) ∧
  (∀ j, (∀ k, (k < 8)%nat → idx k ≠ j) → round_at idx s !!! j = s !!! j).
Proof.
  intros Hlt Hinj. unfold round_at. fold (round_regs idx s).
  set (r := round_regs idx s). clearbody r. split.
  - intros k Hk.
    assert (Hne : ∀ k', (k' < 8)%nat → k' ≠ k → idx k' ≠ idx k)
      by (intros k' Hk' Hd He; apply Hd, Hinj; done).
    do 8 (destruct k as [|k]; [
      rewrite ?list_lookup_total_insert_ne by (apply Hne; lia);
      rewrite list_lookup_total_insert_eq
        by (rewrite ?length_insert; apply Hlt; lia);
      reflexivity|]).
    lia.
  - intros j Hj.
    by rewrite !list_lookup_total_insert_ne by (apply Hj; lia).
Qed.

Lemma round_regs_ext (idx : nat → nat) (s t : list vsx_block_t) :
  (∀ k, (k < 8)%nat → t !!! idx k = s !!! idx k) →
  round_regs idx t = round_regs idx s.
Proof. intros Heq. unfold round_regs. by rewrite !Heq by lia. Qed.

(** Rounds on disjoint groups of eight vectors: after the first [n] groups
    each output slot holds the round of its own group of the input. *)
Lemma foldl_round_at (f : nat → nat → nat) (s : list vsx_block_t) (n : nat) :
  (∀ i k, (i < 8)%nat → (k < 8)%nat → (f i k < length s)%nat) →
  (∀ i i' k k', (i < 8)%nat → (i' < 8)%nat → (k < 8)%nat → (k' < 8)%nat →
                f i k = f i' k' → i = i' ∧ k = k') →
  (n <= 8)%nat →
  length (foldl (λ st i, round_at (f i) st) s (seq 0 n)) = length s ∧
  ∀ i k, (i < 8)%nat → (k < 8)%nat →
    foldl (λ st i, round_at (f i) st) s (seq 0 n) !!! f i k =
      if decide (i < n)%nat then round_out k (round_regs (f i) s)
      else s !!! f i k.
Proof.
  intros Hlt Hinj. induction n as [|n IH]; intros Hn.
  - split; [done|]. intros i k Hi Hk. by rewrite decide_False by lia.
  - destruct IH as [Hlen IH]; [lia|].
    rewrite seq_S, foldl_app. cbn [foldl Nat.add].
    set (st := foldl (λ st i, round_at (f i) st) s (seq 0 n)) in *.
    split; [by rewrite length_round_at|].
    assert (Hregs : round_regs (f n) st = round_regs (f n) s).
    { apply round_regs_ext. intros k Hk.
      rewrite IH by lia. by rewrite decide_False by lia. }
    destruct (round_at_lookup (f n) st) as [Hhit Hmiss].
    { intros k Hk. rewrite Hlen. apply Hlt; lia. }
    { intros k k' Hk Hk' He. by apply (Hinj n n k k'); try lia. }
    intros i k Hi Hk. destruct (decide (i = n)) as [->|Hne].
    + rewrite Hhit by done. rewrite Hregs. by rewrite decide_True by lia.
    + rewrite Hmiss.
      * rewrite IH by done.
        destruct (decide (i < n)%nat), (decide (i < S n)%nat); done || lia.
      * intros k' Hk' He. apply (Hinj n i k' k) in He; lia.
Qed.

(** X14.  The eight row rounds are independent of each other, and so are
    the eight column rounds: vector k of row i after the row loop is output
    k of the round applied to row i of the loop's input, and vector k of
    column i after the column loop is output k of the round applied to
    column i of that loop's input. *)
Theorem rounds_are_independent (s : list vsx_block_t) (i k : nat) :
  wf_state s → (i < 8)%nat → (k < 8)%nat →
  row_rounds s !!! (8 * i + k)%nat =
    round_out k (round_regs (λ k, (8 * i + k)%nat) s) ∧
  column_rounds s !!! (8 * k + i)%nat =
    round_out k (round_regs (λ k, (8 * k + i)%nat) s).
Proof.
  unfold wf_state. intros Hs Hi Hk.
  assert (H64 : length s = 64%nat) by (rewrite Hs; reflexivity).
  split.
  - destruct (foldl_round_at (λ i k, (8 * i + k)%nat) s 8) as [_ Hrow];
      [intros; lia|intros; lia|lia|].
    unfold row_rounds. rewrite (Hrow i k Hi Hk). by rewrite decide_True by lia.
  - destruct (foldl_round_at (λ i k, (8 * k + i)%nat) s 8) as [_ Hcol];
      [intros; lia|intros; lia|lia|].
    unfold column_rounds. rewrite (Hcol i k Hi Hk). by rewrite decide_True by lia.
Qed.

Lemma rounds_are_independent_witness :
  wf_state fresh_vectors ∧ (3 < 8)%nat ∧ (5 < 8)%nat ∧
  row_rounds fresh_vectors !!! (8 * 3 + 5)%nat =
    round_out 5 (round_regs (λ k, (8 * 3 + k)%nat) fresh_vectors).
Proof.
  assert (H1 : wf_state fresh_vectors) by reflexivity.
  assert (H2 : (3 < 8)%nat) by lia.
  assert (H3 : (5 < 8)%nat) by lia.
  split; [exact H1|]. split; [exact H2|]. split; [exact H3|].
  exact (proj1 (rounds_are_independent fresh_vectors 3 5 H1 H2 H3)).
Defined.

End RoundsIndependent.

(** ** The segment filler: each block is written once *)

Module SegmentWrites.
Import Vsx Blamka OptVsx BlamkaFacts FillBlockFacts SegmentFacts RoundFacts
       FillBlockExtra SegmentExtra.

Section FillSegment.

Variable index_alpha : argon2_instance_t → argon2_position_t → Z → bool → Z.
Variable ARGON2_VERSION_10 : Z.
Variable type_code : argon2_type → Z.
Variable stack_address_block stack_input_block : block.

Local Abbreviation body := (fill_segment_body index_alpha ARGON2_VERSION_10).
Local Abbreviation loop := (fill_segment_loop index_alpha ARGON2_VERSION_10).
Local Abbreviation init :=
  (fill_segment_init type_code stack_address_block stack_input_block).
Local Abbreviation in_lane := (index_alpha_in_lane index_alpha).

Lemma curr_offset_loop inst pos (mem : list block) (k : Z) :
  valid_instance inst pos →
  0 <= k → starting_index pos + k <= segment_length inst →
  curr_offset (loop inst pos (init inst pos mem) k) =
    first_curr_offset inst pos + k.
Proof.
  intros Hv Hk Hbound.
  destruct (offsets_inv_loop index_alpha ARGON2_VERSION_10 type_code
              stack_address_block stack_input_block inst pos mem k
              Hv Hk Hbound) as [Hcurr _].
  cbv zeta in Hcurr. rewrite Hcurr, first_curr_offset_valid by done. lia.
Qed.

(** Later iterations leave the blocks written so far alone. *)
Lemma memory_loop_stable inst pos (mem : list block) (k : Z) (n j : nat) :
  valid_instance inst pos →
  0 <= k → starting_index pos + k + Z.of_nat n <= segment_length inst →
  Z.of_nat j < first_curr_offset inst pos + k →
  memory (loop inst pos (init inst pos mem) (k + Z.of_nat n)) !! j =
  memory (loop inst pos (init inst pos mem) k) !! j.
Proof.
  intros Hv Hk. induction n as [|n IH]; intros Hbound Hj.
  - by rewrite Z.add_0_r.
  - replace (k + Z.of_nat (S n)) with (Z.of_nat (S (Z.to_nat k + n))) by lia.
    rewrite fill_segment_loop_S.
    replace (Z.of_nat (Z.to_nat k + n)) with (k + Z.of_nat n) by lia.
    rewrite body_fields. cbv zeta. cbn [memory].
    rewrite curr_offset_loop by (done || lia).
    rewrite list_lookup_insert_ne by lia.
    apply IH; [lia|done].
Qed.

(** X15.  Every block of the segment is written once: after the call the
    block at the k-th offset of the segment holds the state produced by the
    k-th iteration, as it did right after that iteration. *)
Theorem segment_blocks_written_once inst pos (mem : list block) (k : Z) :
  valid_instance inst pos → wf_matrix inst mem → in_lane inst →
  0 <= k → starting_index pos + k < segment_length inst →
  let mem' :=
    fill_segment index_alpha ARGON2_VERSION_10 type_code
      stack_address_block stack_input_block (Some inst) pos mem in
  let s := loop inst pos (init inst pos mem) (k + 1) in
  mem' !! Z.to_nat (first_curr_offset inst pos + k) =
    Some (block_of_vectors (state s)) ∧
  memory s !! Z.to_nat (first_curr_offset inst pos + k) =
    Some (block_of_vectors (state s)).
Proof.
  intros Hv Hm Halpha Hk Hbound mem' s.
  destruct (valid_bounds inst pos Hv) as (Hll & Hp0 & _ & Hl0 & Hseg & Hstart).
  pose proof (segment_inv_loop index_alpha ARGON2_VERSION_10 type_code
                stack_address_block stack_input_block inst pos mem (k + 1)
                Hv Hm Halpha ltac:(lia) ltac:(lia))
    as (Hoff & Hlen & Hwf & Hstate & _).
  fold s in Hoff, Hlen, Hwf, Hstate.
  pose proof (curr_offset_loop inst pos mem (k + 1) Hv ltac:(lia) ltac:(lia))
    as Hcurr.
  fold s in Hcurr.
  pose proof (first_curr_offset_valid inst pos Hv) as Hfirst.
  assert (Hpred : lane_pred inst pos (curr_offset s) =
                  first_curr_offset inst pos + k).
  { rewrite Hcurr, Hfirst.
    replace (lane pos * lane_length inst +
             (slice pos * segment_length inst + starting_index pos) + (k + 1))
      with (lane pos * lane_length inst +
            (slice pos * segment_length inst + starting_index pos + k + 1))
      by lia.
    rewrite lane_pred_at by lia.
    destruct (Z.eqb_spec
                (slice pos * segment_length inst + starting_index pos + k + 1) 0);
      lia. }
  rewrite Hpred in Hstate.
  assert (Hin : lane pos * lane_length inst + lane_length inst
                <= lanes inst * lane_length inst).
  { destruct Hv as (_ & _ & _ & Hlane & _). clear - Hlane Hll. nia. }
  assert (Hlt : (Z.to_nat (first_curr_offset inst pos + k) < length (memory s))%nat).
  { rewrite Hlen. destruct Hm as [Hm _]. lia. }
  assert (Hblock : memory s !! Z.to_nat (first_curr_offset inst pos + k) =
                   Some (block_of_vectors (state s))).
  { rewrite Hstate.
    rewrite block_of_vectors_of_block
      by (apply (Forall_lookup_total_lt _ _ _ Hwf Hlt)).
    by apply list_lookup_lookup_total_lt. }
  split; [|exact Hblock].
  rewrite <- Hblock. unfold mem', s. cbn [fill_segment].
  replace (segment_length inst - starting_index pos)
    with (k + 1 + Z.of_nat (Z.to_nat (segment_length inst - starting_index pos
                                       - (k + 1)))) by lia.
  apply memory_loop_stable; [done|lia|lia|lia].
Qed.

End FillSegment.

Lemma segment_blocks_written_once_witness :
  let inst := sample_instance Argon2_d in
  let pos := sample_position 1 1 in
  let s :=
    fill_segment_loop sample_index_alpha 16 inst pos
      (fill_segment_init sample_type_code zero_words zero_words inst pos
         sample_memory) (0 + 1) in
  valid_instance inst pos ∧ wf_matrix inst sample_memory ∧
  index_alpha_in_lane sample_index_alpha inst ∧
  0 <= 0 ∧ starting_index pos + 0 < segment_length inst ∧
  fill_segment sample_index_alpha 16 sample_type_code
    zero_words zero_words (Some inst) pos sample_memory
    !! Z.to_nat (first_curr_offset inst pos + 0) =
  Some (block_of_vectors (state s)).
Proof.
  intros inst pos s.
  assert (H1 : valid_instance inst pos) by (apply sample_valid; lia).
  pose proof (sample_wf_matrix Argon2_d) as H2.
  pose proof (sample_in_lane Argon2_d) as H3.
  assert (H4 : 0 <= 0) by discriminate.
  assert (H5 : starting_index pos + 0 < segment_length inst) by reflexivity.
  split; [exact H1|]. split; [exact H2|]. split; [exact H3|].
  split; [exact H4|]. split; [exact H5|].
  exact (proj1 (segment_blocks_written_once sample_index_alpha 16
                  sample_type_code zero_words zero_words inst pos
                  sample_memory 0 H1 H2 H3 H4 H5)).
Defined.

End SegmentWrites.
